(** * Black-Scholes-Merton pricing and Greeks

    A shallow embedding of [Delta_hedging/src/options/black_scholes.py]
    (class [BlackScholes]) together with the properties its specification
    states about it.

    Modelling choices.
    - A float64 is idealised as an exact real extended by the three IEEE
      special values [+inf], [-inf] and [nan] (type [float64]).  Finite
      arithmetic is exact: rounding, overflow and underflow are outside the
      model, and so is the sign of zero (a zero divisor acts as [+0.0], which
      is what [sigma * sqrt T] is whenever [sigma > 0]).
    - The five constructor arguments are finite numbers (Python [float]).
    - Python and numpy effects are explicit: a method is a computation in the
      monad [M], which threads the object ([self]), collects the numpy
      [RuntimeWarning]s in the order they are emitted and may stop with a
      Python exception.
    - [norm.cdf] and [norm.pdf] are the standard normal distribution
      function and density, [Phi] and [phi]. *)

From Stdlib Require Import Reals Lra Lia List.
Import ListNotations.
Open Scope R_scope.

(** ** Values, warnings and exceptions *)

Inductive float64 : Type :=
| Fin (x : R)
| PInf
| NInf
| NaN.

(** The numpy operations the class uses; a warning names the one that
    emitted it ("divide by zero encountered in ...", "invalid value
    encountered in ..."). *)
Inductive ufunc : Type :=
| u_add | u_subtract | u_multiply | u_divide | u_log | u_sqrt | u_exp.

Inductive RuntimeWarning : Type :=
| DivideByZero (op : ufunc)
| InvalidValue (op : ufunc)
| Overflow (op : ufunc).

(** [ZeroDivisionError] is what Python raises for [x / 0] on its own floats,
    [OverflowError] what it raises for [x ** 2] when the square is too large
    for a float.  [InvalidParameter] is the error kind the specification
    names; no statement of the source raises it. *)
Inductive PyError : Type :=
| ZeroDivisionError
| OverflowError
| InvalidParameter.

Definition is_finite (v : float64) : Prop :=
  match v with Fin _ => True | _ => False end.

Definition neg (v : float64) : float64 :=
  match v with
  | Fin x => Fin (- x)
  | PInf => NInf
  | NInf => PInf
  | NaN => NaN
  end.

(** ** The effect monad *)

Section Monad.
Context {St : Type}.

Record Res (A : Type) : Type := mkRes
  { outcome : PyError + A;
    warnings : list RuntimeWarning;
    state_after : St }.

Definition M (A : Type) : Type := St -> Res A.

Definition ret {A} (a : A) : M A := fun s => mkRes A (inr a) [] s.

Definition bind {A B} (c : M A) (k : A -> M B) : M B :=
  fun s =>
    match c s with
    | mkRes _ (inl e) w s' => mkRes B (inl e) w s'
    | mkRes _ (inr a) w s' =>
        match k a s' with
        | mkRes _ o w' s'' => mkRes B o (w ++ w') s''
        end
    end.

(** Reading an attribute of the object. *)
Definition attr {A} (field : St -> A) : M A :=
  fun s => mkRes A (inr (field s)) [] s.

Definition warn (w : RuntimeWarning) : M unit :=
  fun s => mkRes unit (inr tt) [w] s.

Definition raise {A} (e : PyError) : M A :=
  fun s => mkRes A (inl e) [] s.
End Monad.

Arguments mkRes {St A} _ _ _.
Arguments outcome {St A} _.
Arguments warnings {St A} _.
Arguments state_after {St A} _.
Arguments M : clear implicits.

Notation "x <- c ;; k" := (bind c (fun x => k))
  (at level 61, c at next level, right associativity).
Notation "c ;;; k" := (bind c (fun _ => k))
  (at level 61, right associativity).

(** ** Python and numpy primitives *)

Section Primitives.
Context {St : Type}.

(** [x / y] on Python floats: a zero divisor raises. *)
Definition py_truediv (x y : R) : M St R :=
  if Req_EM_T y 0 then raise ZeroDivisionError else ret (x / y).

(** [np.log] of a Python float: [-inf] at 0 and [nan] below it, each with a
    warning. *)
Definition np_log (x : R) : M St float64 :=
  if Rlt_dec 0 x then ret (Fin (ln x))
  else if Req_EM_T x 0 then warn (DivideByZero u_log) ;;; ret NInf
  else warn (InvalidValue u_log) ;;; ret NaN.

(** [np.sqrt] of a Python float: [nan], with a warning, below 0. *)
Definition np_sqrt (x : R) : M St float64 :=
  if Rle_dec 0 x then ret (Fin (sqrt x))
  else warn (InvalidValue u_sqrt) ;;; ret NaN.

(** [np.exp] of a Python float. *)
Definition np_exp (x : R) : float64 := Fin (exp x).

(** The four arithmetic operations on float64 values follow IEEE 754 on the
    special values: a nan operand gives nan silently; an operation on
    non-nan operands that has no value ([inf - inf], [0 * inf], [0 / 0],
    [inf / inf]) gives nan and the warning "invalid value encountered";
    a finite non-zero number divided by zero gives an infinity and the
    warning "divide by zero encountered". *)
Definition np_add (x y : float64) : M St float64 :=
  match x, y with
  | NaN, _ | _, NaN => ret NaN
  | Fin a, Fin b => ret (Fin (a + b))
  | PInf, NInf | NInf, PInf => warn (InvalidValue u_add) ;;; ret NaN
  | PInf, _ | _, PInf => ret PInf
  | NInf, _ | _, NInf => ret NInf
  end.

Definition np_subtract (x y : float64) : M St float64 :=
  match x, y with
  | NaN, _ | _, NaN => ret NaN
  | Fin a, Fin b => ret (Fin (a - b))
  | PInf, PInf | NInf, NInf => warn (InvalidValue u_subtract) ;;; ret NaN
  | PInf, _ | _, NInf => ret PInf
  | NInf, _ | _, PInf => ret NInf
  end.

(** An infinity of sign [pos] times the finite [a]. *)
Definition inf_times (pos : bool) (a : R) : M St float64 :=
  if Rlt_dec 0 a then ret (if pos then PInf else NInf)
  else if Rlt_dec a 0 then ret (if pos then NInf else PInf)
  else warn (InvalidValue u_multiply) ;;; ret NaN.

Definition np_multiply (x y : float64) : M St float64 :=
  match x, y with
  | NaN, _ | _, NaN => ret NaN
  | Fin a, Fin b => ret (Fin (a * b))
  | Fin a, PInf | PInf, Fin a => inf_times true a
  | Fin a, NInf | NInf, Fin a => inf_times false a
  | PInf, PInf | NInf, NInf => ret PInf
  | PInf, NInf | NInf, PInf => ret NInf
  end.

Definition np_divide (x y : float64) : M St float64 :=
  match x, y with
  | NaN, _ | _, NaN => ret NaN
  | Fin a, Fin b =>
      if Req_EM_T b 0 then
        if Req_EM_T a 0 then warn (InvalidValue u_divide) ;;; ret NaN
        else warn (DivideByZero u_divide) ;;;
             ret (if Rlt_dec 0 a then PInf else NInf)
      else ret (Fin (a / b))
  | Fin _, PInf | Fin _, NInf => ret (Fin 0)
  | PInf, Fin b => ret (if Rlt_dec b 0 then NInf else PInf)
  | NInf, Fin b => ret (if Rlt_dec b 0 then PInf else NInf)
  | PInf, PInf | PInf, NInf | NInf, PInf | NInf, NInf =>
      warn (InvalidValue u_divide) ;;; ret NaN
  end.
End Primitives.

(** ** The standard normal distribution ([scipy.stats.norm])

    [phi] is the density and [Phi] the distribution function, written as
    [1/2] plus the integral of the density from [0].  That [Phi] has
    derivative [phi], is increasing, satisfies [Phi x + Phi (-x) = 1] and
    takes its values in the open interval (0, 1) is proved below
    ([Phi_derivative], [Phi_increasing], [Phi_symmetry], [Phi_pos],
    [Phi_lt_1]).  On the special values [norm.cdf] and [norm.pdf] take
    their limits, and nan goes to nan. *)

Definition gauss (t : R) : R := exp (- (t * t) / 2).

Lemma gauss_continuity : continuity gauss.
Proof. unfold gauss. reg. Qed.

Definition continuity_integrable (f : R -> R) (Hf : continuity f) (a b : R) :
  Riemann_integrable f a b :=
  match Rle_dec a b with
  | left Hab => continuity_implies_RiemannInt Hab (fun x _ => Hf x)
  | right Hba =>
      RiemannInt_P1
        (continuity_implies_RiemannInt (Rlt_le _ _ (Rnot_le_lt _ _ Hba))
           (fun x _ => Hf x))
  end.

(** The integral of a continuous function from [0] to [x]. *)
Definition integral_from_0 (f : R -> R) (Hf : continuity f) (x : R) : R :=
  RiemannInt (continuity_integrable f Hf 0 x).

Definition gauss_int : R -> R := integral_from_0 gauss gauss_continuity.

(** The density [exp (-x^2/2) / sqrt (2 pi)] and the distribution function
    [1/2 + (the integral of the density from 0 to x)]. *)
Definition phi (x : R) : R := gauss x / sqrt (2 * PI).
Definition Phi (x : R) : R := 1 / 2 + gauss_int x / sqrt (2 * PI).

Definition norm_cdf (v : float64) : float64 :=
  match v with
  | Fin x => Fin (Phi x)
  | PInf => Fin 1
  | NInf => Fin 0
  | NaN => NaN
  end.

Definition norm_pdf (v : float64) : float64 :=
  match v with
  | Fin x => Fin (phi x)
  | PInf | NInf => Fin 0
  | NaN => NaN
  end.

(** ** class BlackScholes *)

Module BlackScholes.

(** The object: the five attributes [__init__] assigns. *)
Record self : Type := mk { S : R; K : R; T : R; r : R; sigma : R }.

(** The constructor stores its five arguments and checks nothing. *)
Definition __init__ (S K T r sigma : R) : PyError + self :=
  inr (mk S K T r sigma).

(** [return (np.log(self.S/self.K) + (self.r + 0.5 * self.sigma**2) * self.T)
           / (self.sigma * np.sqrt(self.T))]

    [self.S/self.K] divides two Python floats; every later operation has a
    numpy operand. *)
Definition d1 : M self float64 :=
  s <- attr S ;; k <- attr K ;;
  q <- py_truediv s k ;;
  l <- np_log q ;;
  r_ <- attr r ;; sg <- attr sigma ;; t <- attr T ;;
  num <- np_add l (Fin ((r_ + 0.5 * sg ^ 2) * t)) ;;
  sg <- attr sigma ;; t <- attr T ;;
  st <- np_sqrt t ;;
  den <- np_multiply (Fin sg) st ;;
  np_divide num den.

(** [return BlackScholes.d1(self) - self.sigma * np.sqrt(self.T)] *)
Definition d2 : M self float64 :=
  x <- d1 ;;
  sg <- attr sigma ;; t <- attr T ;;
  st <- np_sqrt t ;;
  v <- np_multiply (Fin sg) st ;;
  np_subtract x v.

(** [d1 = self.d1(); d2 = self.d2()]
    [if self.T == 0: return max(0, self.S - self.K)]
    [else: return self.S * norm.cdf(d1)
                  - self.K * np.exp(-self.r * self.T) * norm.cdf(d2)] *)
Definition price_european_call : M self float64 :=
  x1 <- d1 ;;
  x2 <- d2 ;;
  t <- attr T ;;
  if Req_EM_T t 0 then
    s <- attr S ;; k <- attr K ;;
    ret (Fin (Rmax 0 (s - k)))
  else
    s <- attr S ;;
    a <- np_multiply (Fin s) (norm_cdf x1) ;;
    k <- attr K ;; r_ <- attr r ;; t <- attr T ;;
    b <- np_multiply (Fin k) (np_exp (- r_ * t)) ;;
    c <- np_multiply b (norm_cdf x2) ;;
    np_subtract a c.

(** [d1 = self.d1(); d2 = self.d2()]
    [if self.T == 0: return max(0, self.K - self.S)]
    [else: return self.K * np.exp(-self.r * self.T) * norm.cdf(-d2)
                  - self.S * norm.cdf(-d1)] *)
Definition price_european_put : M self float64 :=
  x1 <- d1 ;;
  x2 <- d2 ;;
  t <- attr T ;;
  if Req_EM_T t 0 then
    k <- attr K ;; s <- attr S ;;
    ret (Fin (Rmax 0 (k - s)))
  else
    k <- attr K ;; r_ <- attr r ;; t <- attr T ;;
    a <- np_multiply (Fin k) (np_exp (- r_ * t)) ;;
    b <- np_multiply a (norm_cdf (neg x2)) ;;
    s <- attr S ;;
    c <- np_multiply (Fin s) (norm_cdf (neg x1)) ;;
    np_subtract b c.

(** [return norm.cdf(self.d1())] *)
Definition delta_european_call : M self float64 :=
  x <- d1 ;;
  ret (norm_cdf x).

(** [return norm.cdf(self.d1()) - 1] *)
Definition delta_european_put : M self float64 :=
  x <- d1 ;;
  np_subtract (norm_cdf x) (Fin 1).

(** [return norm.pdf(self.d1()) / (self.S * self.sigma * np.sqrt(self.T))] *)
Definition gamma : M self float64 :=
  x <- d1 ;;
  s <- attr S ;; sg <- attr sigma ;; t <- attr T ;;
  st <- np_sqrt t ;;
  den <- np_multiply (Fin (s * sg)) st ;;
  np_divide (norm_pdf x) den.

(** [d1 = self.d1(); d2 = self.d2()]
    [return (-self.S * self.sigma * norm.pdf(d1)) / (2 * np.sqrt(self.T))
            - self.r * self.K * np.exp(-self.r * self.T) * norm.cdf(d2)] *)
Definition theta_european_call : M self float64 :=
  x1 <- d1 ;;
  x2 <- d2 ;;
  s <- attr S ;; sg <- attr sigma ;;
  a <- np_multiply (Fin (- s * sg)) (norm_pdf x1) ;;
  t <- attr T ;;
  st <- np_sqrt t ;;
  b <- np_multiply (Fin 2) st ;;
  c <- np_divide a b ;;
  r_ <- attr r ;; k <- attr K ;; r' <- attr r ;; t <- attr T ;;
  e <- np_multiply (Fin (r_ * k)) (np_exp (- r' * t)) ;;
  f <- np_multiply e (norm_cdf x2) ;;
  np_subtract c f.

(** [d1 = self.d1(); d2 = self.d2()]
    [return (-self.S * self.sigma * norm.pdf(d1)) / (2 * np.sqrt(self.T))
            + self.r * self.K * np.exp(-self.r * self.T) * norm.cdf(-d2)] *)
Definition theta_european_put : M self float64 :=
  x1 <- d1 ;;
  x2 <- d2 ;;
  s <- attr S ;; sg <- attr sigma ;;
  a <- np_multiply (Fin (- s * sg)) (norm_pdf x1) ;;
  t <- attr T ;;
  st <- np_sqrt t ;;
  b <- np_multiply (Fin 2) st ;;
  c <- np_divide a b ;;
  r_ <- attr r ;; k <- attr K ;; r' <- attr r ;; t <- attr T ;;
  e <- np_multiply (Fin (r_ * k)) (np_exp (- r' * t)) ;;
  f <- np_multiply e (norm_cdf (neg x2)) ;;
  np_add c f.

(** [return self.S * np.sqrt(self.T) * norm.pdf(self.d1())] *)
Definition vega : M self float64 :=
  s <- attr S ;; t <- attr T ;;
  st <- np_sqrt t ;;
  a <- np_multiply (Fin s) st ;;
  x <- d1 ;;
  np_multiply a (norm_pdf x).

(** [return self.K * self.T * np.exp(-self.r * self.T) * norm.cdf(self.d2())] *)
Definition rho_european_call : M self float64 :=
  k <- attr K ;; t <- attr T ;; r_ <- attr r ;; t' <- attr T ;;
  a <- np_multiply (Fin (k * t)) (np_exp (- r_ * t')) ;;
  x <- d2 ;;
  np_multiply a (norm_cdf x).

(** [return -self.K * self.T * np.exp(-self.r * self.T)
            * norm.cdf(-self.d2())] *)
Definition rho_european_put : M self float64 :=
  k <- attr K ;; t <- attr T ;; r_ <- attr r ;; t' <- attr T ;;
  a <- np_multiply (Fin (- k * t)) (np_exp (- r_ * t')) ;;
  x <- d2 ;;
  np_multiply a (norm_cdf (neg x)).

(** The twelve queries of the class. *)
Inductive query : Type :=
| q_d1 | q_d2
| q_price_european_call | q_price_european_put
| q_delta_european_call | q_delta_european_put
| q_gamma
| q_theta_european_call | q_theta_european_put
| q_vega
| q_rho_european_call | q_rho_european_put.

(** Calling a query on an object. *)
Definition call (q : query) : M self float64 :=
  match q with
  | q_d1 => d1
  | q_d2 => d2
  | q_price_european_call => price_european_call
  | q_price_european_put => price_european_put
  | q_delta_european_call => delta_european_call
  | q_delta_european_put => delta_european_put
  | q_gamma => gamma
  | q_theta_european_call => theta_european_call
  | q_theta_european_put => theta_european_put
  | q_vega => vega
  | q_rho_european_call => rho_european_call
  | q_rho_european_put => rho_european_put
  end.

End BlackScholes.

(** ** Closed forms over the reals

    What the methods compute when every intermediate value is finite. *)

Definition d1_R (m : BlackScholes.self) : R :=
  (ln (BlackScholes.S m / BlackScholes.K m)
   + (BlackScholes.r m + 0.5 * BlackScholes.sigma m ^ 2) * BlackScholes.T m)
  / (BlackScholes.sigma m * sqrt (BlackScholes.T m)).

Definition d2_R (m : BlackScholes.self) : R :=
  d1_R m - BlackScholes.sigma m * sqrt (BlackScholes.T m).

(** The discounted strike [K * exp (- r * T)]. *)
Definition discounted_strike (m : BlackScholes.self) : R :=
  BlackScholes.K m * exp (- BlackScholes.r m * BlackScholes.T m).

(** The Black-Scholes call and put values. *)
Definition call_R (m : BlackScholes.self) : R :=
  BlackScholes.S m * Phi (d1_R m) - discounted_strike m * Phi (d2_R m).

Definition put_R (m : BlackScholes.self) : R :=
  discounted_strike m * Phi (- d2_R m) - BlackScholes.S m * Phi (- d1_R m).

(** The model [m] with its spot replaced by [s]. *)
Definition with_spot (m : BlackScholes.self) (s : R) : BlackScholes.self :=
  BlackScholes.mk s (BlackScholes.K m) (BlackScholes.T m) (BlackScholes.r m)
    (BlackScholes.sigma m).

(** What [d1] (and [d2]) evaluate to at expiry, [T = 0], for [S, K > 0]:
    the quotient [ln (S/K) / 0], that is [0/0 = nan] at the money and an
    infinity of the sign of [ln (S/K)] otherwise, and the warning numpy emits
    for that division. *)
Definition d1_at_expiry (m : BlackScholes.self) : float64 :=
  if Req_EM_T (BlackScholes.S m) (BlackScholes.K m) then NaN
  else if Rlt_dec (BlackScholes.K m) (BlackScholes.S m) then PInf else NInf.

Definition d1_expiry_warning (m : BlackScholes.self) : RuntimeWarning :=
  if Req_EM_T (BlackScholes.S m) (BlackScholes.K m)
  then InvalidValue u_divide else DivideByZero u_divide.

(** The parameter domain of the specification: [S > 0], [K > 0], [T >= 0],
    and [sigma > 0] when [T > 0]. *)
Definition valid (m : BlackScholes.self) : Prop :=
  0 < BlackScholes.S m /\ 0 < BlackScholes.K m /\ 0 <= BlackScholes.T m /\
  (0 < BlackScholes.T m -> 0 < BlackScholes.sigma m).

(** The objects of the test suite ([tests/test_black_scholes.py]): the
    fixtures [sample_option] and [itm_call], and the option at expiry that the
    price tests build. *)
Definition sample_option : BlackScholes.self :=
  BlackScholes.mk 100 100 1 0.05 0.2.

Definition itm_call : BlackScholes.self :=
  BlackScholes.mk 110 100 1 0.05 0.2.

Definition expiring_option : BlackScholes.self :=
  BlackScholes.mk 100 100 0 0.05 0.2.

(** Two more inputs: an option at expiry that is in the money, and a model
    with a negative volatility. *)
Definition itm_expiring_option : BlackScholes.self :=
  BlackScholes.mk 110 100 0 0.05 0.2.

Definition negative_volatility_option : BlackScholes.self :=
  BlackScholes.mk 100 100 1 0.05 (-0.2).

(** A computation leaves the object as it found it. *)
Definition preserves {St A : Type} (c : M St A) : Prop :=
  forall s, state_after (c s) = s.

(** A computation returns a value (raises no exception) from state [s]. *)
Definition returns_value {St A : Type} (c : M St A) (s : St) : Prop :=
  exists a, outcome (c s) = inr a.

(** A division warning: the divisor of a numpy division was zero
    ("divide by zero encountered" for [x / 0] with [x <> 0],
    "invalid value encountered" for [0 / 0]). *)
Definition zero_divisor_warning (w : RuntimeWarning) : Prop :=
  w = DivideByZero u_divide \/ w = InvalidValue u_divide.

(** ** Antiderivatives of the powers of cosine and the Wallis integrals

    Used to bound the integral of [gauss].  [cos_int k] is the
    antiderivative of [cos ^ k] that vanishes at 0, by the reduction formula
    [k * I(k) = cos^(k-1) sin + (k - 1) * I(k-2)]. *)

Fixpoint cos_int (k : nat) (x : R) {struct k} : R :=
  match k with
  | O => x
  | S O => sin x
  | S (S j) =>
      cos x ^ S j * sin x / INR (S (S j)) + INR (S j) / INR (S (S j)) * cos_int j x
  end.

(** [wallis k] is the integral of [cos ^ k] over [[0, PI/2]]. *)
Definition wallis (k : nat) : R := cos_int k (PI / 2).

(** An antiderivative of [(1 + x^2/(2(m+1)))^(-(m+1))], which dominates
    [gauss]. *)
Definition majorant (m : nat) (x : R) : R :=
  sqrt (2 * INR (S m)) * cos_int (2 * m) (atan (x / sqrt (2 * INR (S m)))).

(** * Real analysis: the distribution function [Phi] *)

(** ** Monotonicity from the sign of the derivative *)

Lemma derivative_nonneg_le (f f' : R -> R) (a b : R) :
  a <= b ->
  (forall c, a <= c <= b -> derivable_pt_lim f c (f' c)) ->
  (forall c, a <= c <= b -> 0 <= f' c) ->
  f a <= f b.
Proof.
  intros [Hlt | ->] Hd Hpos; [|lra].
  destruct (MVT_cor2 f f' a b Hlt Hd) as [c [Hc Hin]].
  assert (0 <= f' c * (b - a)).
  { apply Rmult_le_pos; [apply Hpos; lra | lra]. }
  lra.
Qed.

Lemma derivative_pos_lt (f f' : R -> R) (a b : R) :
  a < b ->
  (forall c, a <= c <= b -> derivable_pt_lim f c (f' c)) ->
  (forall c, a <= c <= b -> 0 < f' c) ->
  f a < f b.
Proof.
  intros Hlt Hd Hpos.
  destruct (MVT_cor2 f f' a b Hlt Hd) as [c [Hc Hin]].
  assert (0 < f' c * (b - a)).
  { apply Rmult_lt_0_compat; [apply Hpos; lra | lra]. }
  lra.
Qed.

(** ** The integral from 0 is an antiderivative *)

Section Antiderivative.
Variable f : R -> R.
Hypothesis Hf : continuity f.

Lemma integral_from_0_at_0 : integral_from_0 f Hf 0 = 0.
Proof. unfold integral_from_0. apply RiemannInt_P9. Qed.

Lemma integral_from_0_primitive (a b : R) (h : a <= b)
      (C0 : forall x, a <= x <= b -> continuity_pt f x) (y : R) :
  a <= y <= b ->
  integral_from_0 f Hf y =
  primitive h (FTC_P1 h C0) y - RiemannInt (continuity_integrable f Hf a 0).
Proof.
  intros [Hay Hyb]. unfold primitive.
  destruct (Rle_dec a y) as [Hl|Hn]; [|contradiction].
  destruct (Rle_dec y b) as [Hr|Hn]; [|contradiction].
  unfold integral_from_0.
  rewrite <- (RiemannInt_P26 (continuity_integrable f Hf a 0)
                (continuity_integrable f Hf 0 y) (FTC_P1 h C0 Hl Hr)).
  ring.
Qed.

Lemma derivable_pt_lim_integral_from_0 (x : R) :
  derivable_pt_lim (integral_from_0 f Hf) x (f x).
Proof.
  assert (h : x - 1 <= x + 1) by lra.
  pose (C0 := fun (y : R) (_ : x - 1 <= y <= x + 1) => Hf y).
  assert (HP := RiemannInt_P28 h C0 (x := x) ltac:(lra)).
  intros eps Heps. destruct (HP eps Heps) as [delta Hdelta].
  assert (Hmin : 0 < Rmin delta 1).
  { apply Rmin_pos; [apply cond_pos | lra]. }
  exists (mkposreal _ Hmin). simpl. intros k Hk Hlt.
  assert (Hk1 : Rabs k < 1).
  { eapply Rlt_le_trans; [exact Hlt | apply Rmin_r]. }
  assert (Hkd : Rabs k < delta).
  { eapply Rlt_le_trans; [exact Hlt | apply Rmin_l]. }
  apply Rabs_def2 in Hk1.
  rewrite (integral_from_0_primitive _ _ h C0 (x + k)) by lra.
  rewrite (integral_from_0_primitive _ _ h C0 x) by lra.
  replace (primitive h (FTC_P1 h C0) (x + k) - _ - (primitive h (FTC_P1 h C0) x - _))
    with (primitive h (FTC_P1 h C0) (x + k) - primitive h (FTC_P1 h C0) x) by ring.
  apply Hdelta; assumption.
Qed.
End Antiderivative.

(** ** Wallis integrals *)

Lemma cos_int_SS (j : nat) (x : R) :
  cos_int (S (S j)) x =
  cos x ^ S j * sin x / INR (S (S j)) + INR (S j) / INR (S (S j)) * cos_int j x.
Proof. reflexivity. Qed.

Lemma cos_int_step_derivative (j : nat) (x : R) :
  derivable_pt_lim (cos_int j) x (cos x ^ j) ->
  derivable_pt_lim (cos_int (S (S j))) x (cos x ^ S (S j)).
Proof.
  intros IH.
  assert (Hpow : derivable_pt_lim (fun y => cos y ^ S j) x
                   (INR (S j) * cos x ^ j * - sin x)).
  { apply (derivable_pt_lim_comp cos (fun y => y ^ S j)).
    - apply derivable_pt_lim_cos.
    - apply (derivable_pt_lim_pow (cos x) (S j)). }
  assert (Hprod := derivable_pt_lim_mult _ _ _ _ _ Hpow (derivable_pt_lim_sin x)).
  assert (H1 := derivable_pt_lim_scal _ (/ INR (S (S j))) _ _ Hprod).
  assert (H2 := derivable_pt_lim_scal _ (INR (S j) / INR (S (S j))) _ _ IH).
  assert (H3 := derivable_pt_lim_plus _ _ _ _ _ H1 H2).
  assert (HN : INR (S (S j)) <> 0) by (apply not_0_INR; discriminate).
  eapply derivable_pt_lim_ext; [| replace (cos x ^ S (S j)) with
      (/ INR (S (S j)) * (INR (S j) * cos x ^ j * - sin x * sin x + cos x ^ S j * cos x)
       + INR (S j) / INR (S (S j)) * cos x ^ j); [exact H3 |]].
  - intros z. unfold plus_fct, mult_real_fct, mult_fct. rewrite cos_int_SS. field. exact HN.
  - assert (Hs : sin x * sin x = 1 - cos x * cos x).
    { generalize (sin2_cos2 x). unfold Rsqr. lra. }
    clear IH Hpow Hprod H1 H2 H3.
    rewrite !S_INR in *. simpl pow.
    generalize dependent (cos x ^ j). intros p.
    generalize dependent (sin x). generalize dependent (cos x). intros c s Hs.
    field_simplify_eq; [|exact HN].
    replace (s ^ 2) with (1 - c * c) by (rewrite <- Hs; ring). ring.
Qed.

Lemma cos_int_derivative (k : nat) (x : R) :
  derivable_pt_lim (cos_int k) x (cos x ^ k).
Proof.
  assert (H : derivable_pt_lim (cos_int k) x (cos x ^ k) /\
              derivable_pt_lim (cos_int (S k)) x (cos x ^ S k)).
  { induction k as [|k [IH0 IH1]].
    - split; simpl.
      + apply (derivable_pt_lim_id x).
      + rewrite Rmult_1_r. apply derivable_pt_lim_sin.
    - split; [exact IH1 | apply cos_int_step_derivative; exact IH0]. }
  exact (proj1 H).
Qed.

Lemma cos_int_0 (k : nat) : cos_int k 0 = 0.
Proof.
  assert (H : cos_int k 0 = 0 /\ cos_int (S k) 0 = 0).
  { induction k as [|k [IH0 IH1]].
    - simpl. split; [reflexivity | apply sin_0].
    - split; [exact IH1|]. rewrite cos_int_SS, IH0, sin_0.
      unfold Rdiv. ring. }
  exact (proj1 H).
Qed.

Lemma wallis_step (j : nat) :
  wallis (S (S j)) = INR (S j) / INR (S (S j)) * wallis j.
Proof.
  unfold wallis. rewrite cos_int_SS, cos_PI2.
  replace (0 ^ S j) with 0 by (simpl; ring). unfold Rdiv. ring.
Qed.

Lemma cos_pow_nonneg (k : nat) (x : R) :
  0 <= x <= PI / 2 -> 0 <= cos x ^ k.
Proof.
  intros Hx. apply pow_le, cos_ge_0; lra.
Qed.

Lemma cos_int_monotone (k : nat) (a b : R) :
  0 <= a -> a <= b -> b <= PI / 2 -> cos_int k a <= cos_int k b.
Proof.
  intros Ha Hab Hb.
  apply (derivative_nonneg_le (cos_int k) (fun x => cos x ^ k)); [assumption| |].
  - intros c _. apply cos_int_derivative.
  - intros c Hc. apply cos_pow_nonneg. lra.
Qed.

Lemma wallis_nonneg (k : nat) : 0 <= wallis k.
Proof.
  rewrite <- (cos_int_0 k). apply cos_int_monotone; try lra.
  generalize PI_RGT_0. lra.
Qed.

Lemma wallis_decreasing (k : nat) : wallis (S k) <= wallis k.
Proof.
  assert (H : cos_int k 0 - cos_int (S k) 0
              <= cos_int k (PI / 2) - cos_int (S k) (PI / 2)).
  { apply (derivative_nonneg_le (fun x => cos_int k x - cos_int (S k) x)
             (fun x => cos x ^ k - cos x ^ S k)).
    - generalize PI_RGT_0. lra.
    - intros c _.
      apply (derivable_pt_lim_minus (cos_int k) (cos_int (S k)));
        apply cos_int_derivative.
    - intros c Hc. simpl pow.
      assert (0 <= cos c ^ k) by (apply cos_pow_nonneg; exact Hc).
      assert (0 <= cos c) by (apply cos_ge_0; lra).
      assert (cos c <= 1) by apply COS_bound.
      nra. }
  rewrite !cos_int_0 in H. unfold wallis. lra.
Qed.

(** [wallis (k+1) * wallis k = PI / (2 (k+1))] *)
Lemma wallis_product (k : nat) : wallis (S k) * wallis k = PI / (2 * INR (S k)).
Proof.
  induction k as [|k IH].
  - unfold wallis. simpl. rewrite sin_PI2. field.
  - rewrite wallis_step.
    assert (HN : INR (S (S k)) <> 0) by (apply not_0_INR; discriminate).
    assert (Hn : INR (S k) <> 0) by (apply not_0_INR; discriminate).
    replace (INR (S k) / INR (S (S k)) * wallis k * wallis (S k))
      with (INR (S k) / INR (S (S k)) * (wallis (S k) * wallis k)) by ring.
    rewrite IH. field. split; assumption.
Qed.

Lemma wallis_sqr_bound (k : nat) :
  wallis (S k) * wallis (S k) <= PI / (2 * INR (S k)).
Proof.
  rewrite <- wallis_product.
  apply Rmult_le_compat_l; [apply wallis_nonneg | apply wallis_decreasing].
Qed.

(** ** The Gaussian integral is at most [sqrt (PI / 2)] *)

Lemma exp_INR_mult (n : nat) (u : R) : exp (INR n * u) = exp u ^ n.
Proof.
  induction n as [|n IH].
  - simpl. rewrite Rmult_0_l. apply exp_0.
  - rewrite S_INR, Rmult_plus_distr_r, Rmult_1_l, exp_plus, IH. simpl. ring.
Qed.

Lemma gauss_pos (x : R) : 0 < gauss x.
Proof. apply exp_pos. Qed.

(** [exp (-x^2/2) <= (1 + x^2/(2n))^(-n)] *)
Lemma gauss_le_rational (n : nat) (x : R) :
  (0 < n)%nat ->
  gauss x <= / (1 + x * x / (2 * INR n)) ^ n.
Proof.
  intros Hn. assert (HN : 0 < INR n) by (apply lt_0_INR; exact Hn).
  set (u := x * x / (2 * INR n)).
  assert (Hu : 0 <= u).
  { unfold u. apply Rmult_le_pos; [nra | left; apply Rinv_0_lt_compat; lra]. }
  unfold gauss. replace (- (x * x) / 2) with (- (INR n * u)) by (unfold u; field; lra).
  rewrite exp_Ropp, exp_INR_mult.
  apply Rinv_le_contravar.
  - apply pow_lt. lra.
  - apply pow_incr. split; [lra | apply exp_ineq1_le].
Qed.

Lemma cos_atan_sqr (y : R) : cos (atan y) * cos (atan y) = / (1 + y * y).
Proof.
  rewrite cos_atan. unfold Rsqr.
  assert (H : 0 < 1 + y * y) by nra.
  assert (Hs : sqrt (1 + y * y) * sqrt (1 + y * y) = 1 + y * y)
    by (apply sqrt_sqrt; lra).
  assert (Hn : sqrt (1 + y * y) <> 0).
  { intros E. rewrite E in Hs. lra. }
  replace (1 / sqrt (1 + y * y) * (1 / sqrt (1 + y * y)))
    with (/ (sqrt (1 + y * y) * sqrt (1 + y * y))) by (field; exact Hn).
  rewrite Hs. reflexivity.
Qed.

Section Majorant.
Variable m : nat.
Let c : R := sqrt (2 * INR (S m)).

Lemma majorant_scale_pos : 0 < c.
Proof.
  unfold c. apply sqrt_lt_R0.
  assert (0 < INR (S m)) by (apply lt_0_INR; lia). lra.
Qed.

Lemma majorant_scale_sqr : c * c = 2 * INR (S m).
Proof.
  unfold c. apply sqrt_sqrt.
  assert (0 < INR (S m)) by (apply lt_0_INR; lia). lra.
Qed.

Lemma majorant_derivative (x : R) :
  derivable_pt_lim (majorant m) x (/ (1 + x * x / (2 * INR (S m))) ^ S m).
Proof.
  assert (Hc := majorant_scale_pos). assert (Hcc := majorant_scale_sqr).
  assert (Hin : derivable_pt_lim (fun z => z / c) x (/ c)).
  { apply derivable_pt_lim_ext with (f := mult_real_fct (/ c) id).
    - intros z. unfold mult_real_fct, id. field. lra.
    - replace (/ c) with (/ c * 1) at 2 by ring.
      apply derivable_pt_lim_scal, derivable_pt_lim_id. }
  assert (Hat := derivable_pt_lim_comp (fun z => z / c) atan x _ _ Hin
                   (derivable_pt_lim_atan (x / c))).
  assert (Hci := derivable_pt_lim_comp _ (cos_int (2 * m)) x _ _ Hat
                   (cos_int_derivative (2 * m) _)).
  assert (Hsc := derivable_pt_lim_scal _ c _ _ Hci).
  eapply derivable_pt_lim_ext; [|
    replace (/ (1 + x * x / (2 * INR (S m))) ^ S m) with
      (c * (cos (comp atan (fun z => z / c) x) ^ (2 * m) *
            (/ (1 + (x / c) ^ 2) * / c))); [exact Hsc|]].
  - intros z. reflexivity.
  - unfold comp. rewrite pow_sqr, cos_atan_sqr.
    replace (x / c * (x / c)) with (x * x / (2 * INR (S m)))
      by (rewrite <- Hcc; field; lra).
    replace ((x / c) ^ 2) with (x * x / (2 * INR (S m)))
      by (rewrite <- Hcc; field; lra).
    rewrite pow_inv.
    assert (Hq : 0 < 1 + x * x / (2 * INR (S m))).
    { rewrite <- Hcc. assert (0 <= x * x / (c * c)); [|lra].
      apply Rmult_le_pos; [nra | left; apply Rinv_0_lt_compat; nra]. }
    set (q := 1 + x * x / (2 * INR (S m))) in *.
    assert (Hp : 0 < q ^ m) by (apply pow_lt; exact Hq).
    rewrite <- tech_pow_Rmult.
    field. split; [lra | split; lra].
Qed.

Lemma majorant_0 : majorant m 0 = 0.
Proof.
  unfold majorant. unfold Rdiv. rewrite Rmult_0_l, atan_0, cos_int_0. ring.
Qed.

Lemma gauss_int_le_majorant (x : R) : 0 <= x -> gauss_int x <= majorant m x.
Proof.
  intros Hx.
  assert (H : majorant m 0 - gauss_int 0 <= majorant m x - gauss_int x).
  { apply (derivative_nonneg_le (fun z => majorant m z - gauss_int z)
             (fun z => / (1 + z * z / (2 * INR (S m))) ^ S m - gauss z)).
    - exact Hx.
    - intros z _. apply (derivable_pt_lim_minus (majorant m) gauss_int).
      + apply majorant_derivative.
      + apply derivable_pt_lim_integral_from_0.
    - intros z _. generalize (gauss_le_rational (S m) z ltac:(lia)). lra. }
  unfold gauss_int in H at 1. rewrite integral_from_0_at_0, majorant_0 in H. lra.
Qed.

Lemma majorant_le_wallis (x : R) :
  0 <= x -> majorant m x <= c * wallis (2 * m).
Proof.
  intros Hx. assert (Hc := majorant_scale_pos). unfold majorant, wallis. fold c.
  apply Rmult_le_compat_l; [lra|].
  assert (Hb := atan_bound (x / c)).
  assert (H0 : 0 <= atan (x / c)).
  { destruct Hx as [Hx | <-].
    - rewrite <- atan_0. left. apply atan_increasing.
      apply Rdiv_lt_0_compat; assumption.
    - unfold Rdiv. rewrite Rmult_0_l, atan_0. lra. }
  apply cos_int_monotone; lra.
Qed.
End Majorant.

Lemma gauss_int_nonneg (x : R) : 0 <= x -> 0 <= gauss_int x.
Proof.
  intros Hx.
  assert (H : gauss_int 0 <= gauss_int x).
  { apply (derivative_nonneg_le gauss_int gauss); [exact Hx | |].
    - intros z _. apply derivable_pt_lim_integral_from_0.
    - intros z _. left. apply gauss_pos. }
  unfold gauss_int in H at 1. rewrite integral_from_0_at_0 in H. exact H.
Qed.

Lemma gauss_int_sqr_approx (m : nat) (x : R) :
  0 <= x ->
  gauss_int x * gauss_int x <= PI / 2 * (1 + / INR (S m)).
Proof.
  intros Hx.
  assert (H1 := gauss_int_le_majorant (S m) x Hx).
  assert (H2 := majorant_le_wallis (S m) x Hx).
  assert (H0 := gauss_int_nonneg x Hx).
  assert (Hc := majorant_scale_pos (S m)).
  assert (Hcc := majorant_scale_sqr (S m)).
  assert (Hw0 := wallis_nonneg (2 * S m)).
  replace (2 * S m)%nat with (S (S (2 * m))) in * by lia.
  assert (Hw := wallis_sqr_bound (S (2 * m))).
  set (c := sqrt (2 * INR (S (S m)))) in *.
  set (w := wallis (S (S (2 * m)))) in *.
  set (g := gauss_int x) in *.
  assert (Hg : g * g <= (c * w) * (c * w)) by nra.
  assert (Hcw : c * w * (c * w)
                <= 2 * INR (S (S m)) * (PI / (2 * INR (S (S (2 * m)))))).
  { replace (c * w * (c * w)) with (c * c * (w * w)) by ring. rewrite Hcc.
    apply Rmult_le_compat_l; [|exact Hw].
    assert (0 < INR (S (S m))) by (apply lt_0_INR; lia). lra. }
  eapply Rle_trans; [exact Hg|]. eapply Rle_trans; [exact Hcw|].
  right. rewrite !S_INR, mult_INR. simpl INR.
  assert (0 <= INR m) by apply pos_INR. field. lra.
Qed.

Lemma gauss_int_sqr_bound (x : R) :
  0 <= x -> gauss_int x * gauss_int x <= PI / 2.
Proof.
  intros Hx. apply Rnot_lt_le. intros Hlt.
  assert (Hpi := PI_RGT_0).
  set (d := gauss_int x * gauss_int x - PI / 2) in *.
  assert (Hd : 0 < d / (PI / 2)).
  { apply Rdiv_lt_0_compat; unfold d; lra. }
  destruct (archimed_cor1 _ Hd) as [N [HN HN0]].
  destruct N as [|m]; [lia|].
  assert (H := gauss_int_sqr_approx m x Hx).
  assert (Hm : PI / 2 * / INR (S m) < d).
  { apply Rmult_lt_compat_l with (r := PI / 2) in HN; [|lra].
    replace (PI / 2 * (d / (PI / 2))) with d in HN by (field; lra). exact HN. }
  unfold d in Hm. lra.
Qed.

(** ** Properties of [phi] and [Phi] *)

Lemma sqrt_2PI_pos : 0 < sqrt (2 * PI).
Proof. apply sqrt_lt_R0. generalize PI_RGT_0. lra. Qed.

Lemma sqrt_2PI_sqr : sqrt (2 * PI) * sqrt (2 * PI) = 2 * PI.
Proof. apply sqrt_sqrt. generalize PI_RGT_0. lra. Qed.

Lemma phi_pos (x : R) : 0 < phi x.
Proof.
  unfold phi. apply Rdiv_lt_0_compat; [apply gauss_pos | apply sqrt_2PI_pos].
Qed.

Lemma phi_even (x : R) : phi (- x) = phi x.
Proof.
  unfold phi, gauss. replace (- x * - x) with (x * x) by ring. reflexivity.
Qed.

Lemma Phi_derivative (x : R) : derivable_pt_lim Phi x (phi x).
Proof.
  assert (Hs := sqrt_2PI_pos).
  apply derivable_pt_lim_ext with
    (f := (fct_cte (1 / 2) + mult_real_fct (/ sqrt (2 * PI)) gauss_int)%F).
  - intros z. unfold plus_fct, fct_cte, mult_real_fct, Phi. field. lra.
  - replace (phi x) with (0 + / sqrt (2 * PI) * gauss x)
      by (unfold phi; field; lra).
    apply derivable_pt_lim_plus; [apply derivable_pt_lim_const|].
    apply derivable_pt_lim_scal. apply derivable_pt_lim_integral_from_0.
Qed.

Lemma Phi_increasing (x y : R) : x < y -> Phi x < Phi y.
Proof.
  intros Hxy. apply (derivative_pos_lt Phi phi); [exact Hxy | |].
  - intros c _. apply Phi_derivative.
  - intros c _. apply phi_pos.
Qed.

Lemma Phi_0 : Phi 0 = 1 / 2.
Proof.
  unfold Phi, gauss_int. rewrite integral_from_0_at_0. unfold Rdiv. ring.
Qed.

Lemma Phi_reflect_derivative (x : R) :
  derivable_pt_lim (fun z => Phi z + Phi (- z)) x 0.
Proof.
  assert (Hneg : derivable_pt_lim (fun z => Phi (- z)) x (phi (- x) * -1)).
  { apply (derivable_pt_lim_comp (fun z => - z) Phi).
    - apply (derivable_pt_lim_opp id x 1), derivable_pt_lim_id.
    - apply Phi_derivative. }
  replace 0 with (phi x + phi (- x) * -1) by (rewrite phi_even; ring).
  apply (derivable_pt_lim_plus Phi (fun z => Phi (- z)));
    [apply Phi_derivative | exact Hneg].
Qed.

(** [Phi x + Phi (-x) = 1] *)
Lemma Phi_symmetry (x : R) : Phi x + Phi (- x) = 1.
Proof.
  assert (H0 : Phi 0 + Phi (- 0) = 1) by (rewrite Ropp_0, Phi_0; lra).
  destruct (Rtotal_order 0 x) as [Hlt | [<- | Hgt]]; [| exact H0 |].
  - destruct (MVT_cor2 (fun z => Phi z + Phi (- z)) (fun _ => 0) 0 x Hlt)
      as [c [Hc _]].
    + intros z _. apply Phi_reflect_derivative.
    + lra.
  - destruct (MVT_cor2 (fun z => Phi z + Phi (- z)) (fun _ => 0) x 0 Hgt)
      as [c [Hc _]].
    + intros z _. apply Phi_reflect_derivative.
    + lra.
Qed.

Lemma Phi_le_1_nonneg (x : R) : 0 <= x -> Phi x <= 1.
Proof.
  intros Hx. assert (Hs := sqrt_2PI_pos). assert (Hss := sqrt_2PI_sqr).
  assert (Hb := gauss_int_sqr_bound x Hx).
  assert (Hg := gauss_int_nonneg x Hx).
  assert (Hle : gauss_int x <= sqrt (2 * PI) / 2).
  { apply Rnot_lt_le. intros Hlt.
    assert (sqrt (2 * PI) / 2 * (sqrt (2 * PI) / 2) < gauss_int x * gauss_int x)
      by (apply Rmult_le_0_lt_compat; lra).
    nra. }
  unfold Phi. apply Rmult_le_compat_r with (r := / sqrt (2 * PI)) in Hle.
  - replace (sqrt (2 * PI) / 2 * / sqrt (2 * PI)) with (1 / 2) in Hle
      by (field; lra).
    unfold Rdiv at 2. lra.
  - left. apply Rinv_0_lt_compat. exact Hs.
Qed.

Lemma Phi_lt_1 (x : R) : Phi x < 1.
Proof.
  apply Rlt_le_trans with (Phi (Rmax x 0 + 1)).
  - apply Phi_increasing. generalize (Rmax_l x 0). lra.
  - apply Phi_le_1_nonneg. generalize (Rmax_r x 0). lra.
Qed.

Lemma Phi_pos (x : R) : 0 < Phi x.
Proof.
  generalize (Phi_symmetry x) (Phi_lt_1 (- x)). lra.
Qed.

(** * The effect monad: laws used below *)

Section MonadLemmas.
Context {St : Type}.

Lemma bind_attr {A B} (f : St -> A) (k : A -> M St B) (s : St) :
  bind (attr f) k s = k (f s) s.
Proof. unfold bind, attr. destruct (k (f s) s). reflexivity. Qed.

Lemma bind_run {A B} (c : M St A) (k : A -> M St B) (s : St) (a : A) :
  c s = mkRes (inr a) [] s -> bind c k s = k a s.
Proof. intros E. unfold bind. rewrite E. destruct (k a s). reflexivity. Qed.

(** The general shape of a run of [bind] whose first part returns. *)
Lemma bind_run_warn {A B} (c : M St A) (k : A -> M St B) (s : St) (a : A)
      (w : list RuntimeWarning) :
  c s = mkRes (inr a) w s ->
  bind c k s =
  mkRes (outcome (k a s)) (w ++ warnings (k a s)) (state_after (k a s)).
Proof. intros E. unfold bind. rewrite E. destruct (k a s). reflexivity. Qed.

Lemma bind_raises {A B} (c : M St A) (k : A -> M St B) (s : St) (e : PyError) :
  outcome (c s) = inl e -> outcome (bind c k s) = inl e.
Proof.
  unfold bind. destruct (c s) as [[e'|a] w s']; simpl; intros E.
  - injection E as ->. reflexivity.
  - discriminate.
Qed.

Lemma bind_preserves {A B} (c : M St A) (k : A -> M St B) :
  preserves c -> (forall a, preserves (k a)) -> preserves (bind c k).
Proof.
  intros Hc Hk s. unfold bind. specialize (Hc s).
  destruct (c s) as [[e|a] w s']; simpl in *.
  - exact Hc.
  - specialize (Hk a s'). destruct (k a s') as [o w' s'']. simpl in *.
    congruence.
Qed.

(** If the first part returns and leaves the object alone, and the rest
    has outcome [o] whatever value it is given, so has the whole. *)
Lemma bind_outcome {A B} (c : M St A) (k : A -> M St B) (s : St)
      (o : PyError + B) :
  preserves c -> returns_value c s ->
  (forall a, outcome (k a s) = o) -> outcome (bind c k s) = o.
Proof.
  intros Hc [a Ha] Hk. unfold bind. specialize (Hc s).
  destruct (c s) as [[e|a'] w s']; simpl in *; [discriminate|].
  subst s'. specialize (Hk a'). destruct (k a' s). exact Hk.
Qed.

Lemma bind_returns {A B} (c : M St A) (k : A -> M St B) (s : St) :
  preserves c -> returns_value c s ->
  (forall a, returns_value (k a) s) -> returns_value (bind c k) s.
Proof.
  intros Hc [a Ha] Hk. unfold returns_value, bind. specialize (Hc s).
  destruct (c s) as [[e|a'] w s']; simpl in *; [discriminate|].
  subst s'. destruct (Hk a') as [b Hb]. destruct (k a' s). exists b. exact Hb.
Qed.

Lemma bind_attr_returns {A B} (f : St -> A) (k : A -> M St B) (s : St) :
  returns_value (k (f s)) s -> returns_value (bind (attr f) k) s.
Proof. unfold returns_value. rewrite bind_attr. trivial. Qed.

Lemma ret_preserves {A} (a : A) : preserves (ret (St := St) a).
Proof. intros s. reflexivity. Qed.

Lemma attr_preserves {A} (f : St -> A) : preserves (attr f).
Proof. intros s. reflexivity. Qed.

Lemma warn_ret_preserves {A} (w : RuntimeWarning) (a : A) :
  preserves (warn (St := St) w ;;; ret a).
Proof. intros s. reflexivity. Qed.

Lemma ret_returns {A} (a : A) (s : St) : returns_value (ret a) s.
Proof. exists a. reflexivity. Qed.

Lemma warn_ret_returns {A} (w : RuntimeWarning) (a : A) (s : St) :
  returns_value (warn w ;;; ret a) s.
Proof. exists a. reflexivity. Qed.

Lemma py_truediv_preserves (x y : R) : preserves (py_truediv (St := St) x y).
Proof. intros s. unfold py_truediv. destruct (Req_EM_T y 0); reflexivity. Qed.

Lemma py_truediv_returns (x y : R) (s : St) :
  y <> 0 -> returns_value (py_truediv x y) s.
Proof.
  intros Hy. unfold py_truediv. destruct (Req_EM_T y 0); [contradiction|].
  apply ret_returns.
Qed.

Lemma py_truediv_raises (x : R) (s : St) :
  outcome (py_truediv x 0 s) = inl ZeroDivisionError.
Proof.
  unfold py_truediv. destruct (Req_EM_T 0 0) as [_|N]; [reflexivity|].
  contradiction N. reflexivity.
Qed.

Ltac numpy_cases :=
  repeat match goal with
         | |- context [Rlt_dec ?a ?b] => destruct (Rlt_dec a b)
         | |- context [Rle_dec ?a ?b] => destruct (Rle_dec a b)
         | |- context [Req_EM_T ?a ?b] => destruct (Req_EM_T a b)
         end;
  first [apply ret_preserves | apply warn_ret_preserves
        | apply ret_returns | apply warn_ret_returns].

Lemma np_log_preserves (x : R) : preserves (np_log (St := St) x).
Proof. unfold np_log. numpy_cases. Qed.

Lemma np_log_returns (x : R) (s : St) : returns_value (np_log x) s.
Proof. unfold np_log. numpy_cases. Qed.

Lemma np_sqrt_preserves (x : R) : preserves (np_sqrt (St := St) x).
Proof. unfold np_sqrt. numpy_cases. Qed.

Lemma np_sqrt_returns (x : R) (s : St) : returns_value (np_sqrt x) s.
Proof. unfold np_sqrt. numpy_cases. Qed.

Lemma np_add_preserves (x y : float64) : preserves (np_add (St := St) x y).
Proof. destruct x, y; unfold np_add; numpy_cases. Qed.

Lemma np_add_returns (x y : float64) (s : St) : returns_value (np_add x y) s.
Proof. destruct x, y; unfold np_add; numpy_cases. Qed.

Lemma np_subtract_preserves (x y : float64) :
  preserves (np_subtract (St := St) x y).
Proof. destruct x, y; unfold np_subtract; numpy_cases. Qed.

Lemma np_subtract_returns (x y : float64) (s : St) :
  returns_value (np_subtract x y) s.
Proof. destruct x, y; unfold np_subtract; numpy_cases. Qed.

Lemma np_multiply_preserves (x y : float64) :
  preserves (np_multiply (St := St) x y).
Proof. destruct x, y; unfold np_multiply, inf_times; numpy_cases. Qed.

Lemma np_multiply_returns (x y : float64) (s : St) :
  returns_value (np_multiply x y) s.
Proof. destruct x, y; unfold np_multiply, inf_times; numpy_cases. Qed.

Lemma np_divide_preserves (x y : float64) :
  preserves (np_divide (St := St) x y).
Proof. destruct x, y; unfold np_divide; numpy_cases. Qed.

Lemma np_divide_returns (x y : float64) (s : St) :
  returns_value (np_divide x y) s.
Proof. destruct x, y; unfold np_divide; numpy_cases. Qed.
End MonadLemmas.

Create HintDb numpy.
#[export] Hint Resolve ret_preserves attr_preserves py_truediv_preserves
  np_log_preserves np_sqrt_preserves np_add_preserves np_subtract_preserves
  np_multiply_preserves np_divide_preserves : numpy.
#[export] Hint Resolve ret_returns np_log_returns np_sqrt_returns np_add_returns
  np_subtract_returns np_multiply_returns np_divide_returns : numpy.

(** Proves [preserves c] for a computation built from the primitives. *)
Ltac preserves_tac :=
  repeat first
    [ apply bind_preserves; [|intro]
    | match goal with
      | |- preserves (if ?d then _ else _) => destruct d
      end
    | solve [auto with numpy] ].

(** Proves [returns_value c s], reading attributes as they are. *)
Ltac returns_tac :=
  repeat first
    [ apply bind_attr_returns
    | apply bind_returns; [solve [preserves_tac] | solve [auto with numpy] | intro]
    | match goal with
      | |- returns_value (if ?d then _ else _) _ => destruct d
      end
    | solve [auto with numpy] ].

(** * The class: runs of its methods *)

Section Runs.
Import BlackScholes.

Lemma d1_preserves : preserves d1.
Proof. unfold d1. preserves_tac. Qed.

Lemma d2_preserves : preserves d2.
Proof.
  unfold d2. apply bind_preserves; [apply d1_preserves | intro].
  preserves_tac.
Qed.

#[local] Hint Resolve d1_preserves d2_preserves : numpy.

Lemma call_preserves (q : query) : preserves (call q).
Proof.
  destruct q; cbv beta iota delta
    [call price_european_call price_european_put delta_european_call
     delta_european_put gamma theta_european_call theta_european_put vega
     rho_european_call rho_european_put]; preserves_tac.
Qed.

(** *** Exceptions: the only one is the division [S / K] in [d1] *)

Lemma d1_returns (s : self) : K s <> 0 -> returns_value d1 s.
Proof.
  intros HK. unfold d1. do 2 apply bind_attr_returns.
  apply bind_returns;
    [apply py_truediv_preserves | apply py_truediv_returns; exact HK | intro].
  returns_tac.
Qed.

Lemma d2_returns (s : self) : K s <> 0 -> returns_value d2 s.
Proof.
  intros HK. unfold d2.
  apply bind_returns; [apply d1_preserves | apply d1_returns; exact HK | intro].
  returns_tac.
Qed.

Lemma d1_raises (s : self) :
  K s = 0 -> outcome (d1 s) = inl ZeroDivisionError.
Proof.
  intros HK. unfold d1. rewrite !bind_attr. apply bind_raises.
  rewrite HK. apply py_truediv_raises.
Qed.

Lemma d2_raises (s : self) :
  K s = 0 -> outcome (d2 s) = inl ZeroDivisionError.
Proof. intros HK. unfold d2. apply bind_raises, d1_raises, HK. Qed.

Ltac query_returns HK :=
  repeat first
    [ apply bind_attr_returns
    | apply bind_returns;
      [ solve [preserves_tac]
      | first [ apply d1_returns; exact HK | apply d2_returns; exact HK
              | solve [auto with numpy] ]
      | intro ]
    | match goal with
      | |- returns_value (if ?d then _ else _) _ => destruct d
      end
    | solve [auto with numpy] ].

Lemma call_returns (q : query) (s : self) :
  K s <> 0 -> returns_value (call q) s.
Proof.
  intros HK.
  destruct q; cbv beta iota delta
    [call price_european_call price_european_put delta_european_call
     delta_european_put gamma theta_european_call theta_european_put vega
     rho_european_call rho_european_put];
    try (apply d1_returns; exact HK); try (apply d2_returns; exact HK);
    query_returns HK.
Qed.

Ltac query_raises HK :=
  repeat first
    [ rewrite bind_attr
    | apply bind_raises;
      first [ apply d1_raises; exact HK | apply d2_raises; exact HK ]
    | apply bind_outcome; [ solve [preserves_tac] | solve [auto with numpy] | intro ] ].

Lemma call_raises (q : query) (s : self) :
  K s = 0 -> outcome (call q s) = inl ZeroDivisionError.
Proof.
  intros HK.
  destruct q; cbv beta iota delta
    [call price_european_call price_european_put delta_european_call
     delta_european_put gamma theta_european_call theta_european_put vega
     rho_european_call rho_european_put];
    try (apply d1_raises; exact HK); try (apply d2_raises; exact HK);
    query_raises HK.
Qed.
End Runs.

(** ** Runs in the interior of the domain: [S, K, T, sigma > 0] *)

Ltac unfold_numpy :=
  cbv beta iota delta
    [bind attr ret warn raise py_truediv np_log np_sqrt np_exp np_add
     np_subtract np_multiply np_divide inf_times norm_cdf norm_pdf neg].

Section InteriorRuns.
Import BlackScholes.

Variable m : self.
Hypothesis HS : 0 < S m.
Hypothesis HK : 0 < K m.
Hypothesis HT : 0 < T m.
Hypothesis Hsigma : 0 < sigma m.

Lemma sqrt_T_pos : 0 < sqrt (T m).
Proof. apply sqrt_lt_R0. exact HT. Qed.

Lemma vol_sqrt_T_pos : 0 < sigma m * sqrt (T m).
Proof. apply Rmult_lt_0_compat; [exact Hsigma | exact sqrt_T_pos]. Qed.

Lemma d1_run : d1 m = mkRes (inr (Fin (d1_R m))) [] m.
Proof.
  unfold d1. unfold_numpy.
  destruct (Req_EM_T (K m) 0) as [E|_]; [lra|].
  assert (Hq : 0 < S m / K m) by (apply Rdiv_lt_0_compat; assumption).
  destruct (Rlt_dec 0 (S m / K m)) as [_|N]; [|contradiction].
  destruct (Rle_dec 0 (T m)) as [_|N]; [|lra].
  assert (Hd := vol_sqrt_T_pos).
  destruct (Req_EM_T (sigma m * sqrt (T m)) 0) as [E|_]; [lra|].
  reflexivity.
Qed.

Lemma d2_run : d2 m = mkRes (inr (Fin (d2_R m))) [] m.
Proof.
  unfold d2. rewrite (bind_run _ _ _ _ d1_run). unfold_numpy.
  destruct (Rle_dec 0 (T m)) as [_|N]; [|lra].
  reflexivity.
Qed.

Ltac interior_run :=
  rewrite ?(bind_run _ _ _ _ d1_run), ?(bind_run _ _ _ _ d2_run);
  unfold_numpy;
  repeat match goal with
         | |- context [Req_EM_T (T m) 0] =>
             destruct (Req_EM_T (T m) 0) as [?E|_]; [lra|]
         | |- context [Rle_dec 0 (T m)] =>
             destruct (Rle_dec 0 (T m)) as [_|?N]; [|lra]
         end.

Lemma price_european_call_run :
  price_european_call m =
  mkRes (inr (Fin (S m * Phi (d1_R m) - discounted_strike m * Phi (d2_R m))))
        [] m.
Proof. unfold price_european_call. interior_run. reflexivity. Qed.

Lemma price_european_put_run :
  price_european_put m =
  mkRes (inr (Fin (discounted_strike m * Phi (- d2_R m)
                   - S m * Phi (- d1_R m)))) [] m.
Proof. unfold price_european_put. interior_run. reflexivity. Qed.

Lemma delta_european_call_run :
  delta_european_call m = mkRes (inr (Fin (Phi (d1_R m)))) [] m.
Proof. unfold delta_european_call. interior_run. reflexivity. Qed.

Lemma delta_european_put_run :
  delta_european_put m = mkRes (inr (Fin (Phi (d1_R m) - 1))) [] m.
Proof. unfold delta_european_put. interior_run. reflexivity. Qed.

Lemma two_sqrt_T_neq_0 : 2 * sqrt (T m) <> 0.
Proof. generalize sqrt_T_pos. lra. Qed.

Lemma theta_european_call_run :
  theta_european_call m =
  mkRes (inr (Fin (- S m * sigma m * phi (d1_R m) / (2 * sqrt (T m))
                   - r m * K m * exp (- r m * T m) * Phi (d2_R m)))) [] m.
Proof.
  unfold theta_european_call. interior_run.
  destruct (Req_EM_T (2 * sqrt (T m)) 0) as [E|_];
    [contradiction (two_sqrt_T_neq_0 E)|].
  reflexivity.
Qed.

Lemma theta_european_put_run :
  theta_european_put m =
  mkRes (inr (Fin (- S m * sigma m * phi (d1_R m) / (2 * sqrt (T m))
                   + r m * K m * exp (- r m * T m) * Phi (- d2_R m)))) [] m.
Proof.
  unfold theta_european_put. interior_run.
  destruct (Req_EM_T (2 * sqrt (T m)) 0) as [E|_];
    [contradiction (two_sqrt_T_neq_0 E)|].
  reflexivity.
Qed.
End InteriorRuns.

(** ** Runs at expiry: [T = 0] with [S, K > 0] *)

Section ExpiryRuns.
Import BlackScholes.

Variable m : self.
Hypothesis HS : 0 < S m.
Hypothesis HK : 0 < K m.
Hypothesis HT : T m = 0.

Lemma ln_moneyness_zero : ln (S m / K m) = 0 <-> S m = K m.
Proof.
  assert (Hq : 0 < S m / K m) by (apply Rdiv_lt_0_compat; assumption).
  split; intros H.
  - rewrite <- ln_1 in H. apply ln_inv in H; [|exact Hq|lra].
    apply (f_equal (fun x => x * K m)) in H.
    unfold Rdiv in H. rewrite Rmult_assoc, Rinv_l in H; lra.
  - rewrite H. unfold Rdiv. rewrite Rinv_r by lra. apply ln_1.
Qed.

Lemma ln_moneyness_pos : 0 < ln (S m / K m) <-> K m < S m.
Proof.
  assert (Hq : 0 < S m / K m) by (apply Rdiv_lt_0_compat; assumption).
  assert (Hmul : S m / K m * K m = S m) by (field; lra).
  rewrite <- ln_1. split; intros H.
  - apply ln_lt_inv in H; [|lra|exact Hq]. nra.
  - apply ln_increasing; [lra|].
    apply Rmult_lt_reg_r with (r := K m); [exact HK|]. lra.
Qed.

Lemma d1_run_expiry :
  d1 m = mkRes (inr (d1_at_expiry m)) [d1_expiry_warning m] m.
Proof.
  unfold d1, d1_at_expiry, d1_expiry_warning. unfold_numpy.
  destruct (Req_EM_T (K m) 0) as [E|_]; [lra|].
  assert (Hq : 0 < S m / K m) by (apply Rdiv_lt_0_compat; assumption).
  destruct (Rlt_dec 0 (S m / K m)) as [_|N]; [|contradiction].
  cbv beta iota. rewrite HT.
  destruct (Rle_dec 0 0) as [_|N]; [|lra].
  cbv beta iota. rewrite sqrt_0, Rmult_0_r.
  destruct (Req_EM_T 0 0) as [_|N]; [|lra].
  rewrite Rmult_0_r, Rplus_0_r.
  destruct (Req_EM_T (S m) (K m)) as [E|NE].
  - destruct (Req_EM_T (ln (S m / K m)) 0) as [_|N]; [reflexivity|].
    contradiction N. apply ln_moneyness_zero. exact E.
  - destruct (Req_EM_T (ln (S m / K m)) 0) as [E|_].
    + contradiction NE. apply ln_moneyness_zero. exact E.
    + destruct (Rlt_dec 0 (ln (S m / K m))) as [P|NP];
        destruct (Rlt_dec (K m) (S m)) as [Q|NQ]; try reflexivity.
      * contradiction NQ. apply ln_moneyness_pos. exact P.
      * contradiction NP. apply ln_moneyness_pos. exact Q.
Qed.

Lemma d2_run_expiry :
  d2 m = mkRes (inr (d1_at_expiry m)) [d1_expiry_warning m] m.
Proof.
  unfold d2. rewrite (bind_run_warn _ _ _ _ _ d1_run_expiry).
  unfold_numpy.
  destruct (Rle_dec 0 (T m)) as [_|N]; [|lra].
  unfold d1_at_expiry.
  destruct (Req_EM_T (S m) (K m)); [reflexivity|].
  destruct (Rlt_dec (K m) (S m)); reflexivity.
Qed.

Lemma price_european_call_run_expiry :
  price_european_call m =
  mkRes (inr (Fin (Rmax 0 (S m - K m))))
        [d1_expiry_warning m; d1_expiry_warning m] m.
Proof.
  unfold price_european_call.
  rewrite (bind_run_warn _ _ _ _ _ d1_run_expiry). cbv beta.
  rewrite (bind_run_warn _ _ _ _ _ d2_run_expiry).
  unfold_numpy.
  destruct (Req_EM_T (T m) 0) as [_|N]; [reflexivity | contradiction].
Qed.

Lemma price_european_put_run_expiry :
  price_european_put m =
  mkRes (inr (Fin (Rmax 0 (K m - S m))))
        [d1_expiry_warning m; d1_expiry_warning m] m.
Proof.
  unfold price_european_put.
  rewrite (bind_run_warn _ _ _ _ _ d1_run_expiry). cbv beta.
  rewrite (bind_run_warn _ _ _ _ _ d2_run_expiry).
  unfold_numpy.
  destruct (Req_EM_T (T m) 0) as [_|N]; [reflexivity | contradiction].
Qed.

Lemma gamma_run_expiry :
  gamma m =
  mkRes (inr NaN)
        (d1_expiry_warning m ::
           if Req_EM_T (S m) (K m) then [] else [InvalidValue u_divide]) m.
Proof.
  unfold gamma. rewrite (bind_run_warn _ _ _ _ _ d1_run_expiry).
  unfold_numpy. rewrite HT.
  destruct (Rle_dec 0 0) as [_|N]; [|lra].
  rewrite sqrt_0, Rmult_0_r.
  unfold d1_at_expiry.
  destruct (Req_EM_T (S m) (K m)); [reflexivity|].
  destruct (Rlt_dec (K m) (S m));
    (destruct (Req_EM_T 0 0) as [_|N]; [reflexivity | lra]).
Qed.

Lemma vega_run_expiry :
  vega m =
  mkRes (inr (if Req_EM_T (S m) (K m) then NaN else Fin 0))
        [d1_expiry_warning m] m.
Proof.
  unfold vega. rewrite !bind_attr. unfold np_sqrt at 1.
  destruct (Rle_dec 0 (T m)) as [_|N]; [|lra].
  rewrite (bind_run _ _ _ (Fin (sqrt (T m)))) by reflexivity.
  rewrite (bind_run _ _ _ (Fin (S m * sqrt (T m)))) by reflexivity.
  rewrite (bind_run_warn _ _ _ _ _ d1_run_expiry).
  unfold_numpy. unfold d1_at_expiry.
  rewrite HT, sqrt_0, Rmult_0_r.
  destruct (Req_EM_T (S m) (K m)); [reflexivity|].
  destruct (Rlt_dec (K m) (S m)); cbv beta iota; rewrite Rmult_0_l;
    reflexivity.
Qed.
End ExpiryRuns.

(** * The price as a function of the spot *)

Section SpotSensitivity.
Import BlackScholes.

Variable m : self.
Hypothesis HK : 0 < K m.
Hypothesis HT : 0 < T m.
Hypothesis Hsigma : 0 < sigma m.

Let v : R := sigma m * sqrt (T m).

Lemma vol_pos : 0 < v.
Proof.
  unfold v. apply Rmult_lt_0_compat; [exact Hsigma | apply sqrt_lt_R0, HT].
Qed.

Lemma vol_sqr : v * v = sigma m ^ 2 * T m.
Proof.
  unfold v.
  replace (sigma m * sqrt (T m) * (sigma m * sqrt (T m)))
    with (sigma m ^ 2 * (sqrt (T m) * sqrt (T m))) by ring.
  rewrite sqrt_sqrt by lra. reflexivity.
Qed.

(** [K exp (-rT) phi (d2) = S phi (d1)] *)
Lemma discounted_strike_density (s : R) :
  0 < s ->
  discounted_strike (with_spot m s) * phi (d2_R (with_spot m s)) =
  s * phi (d1_R (with_spot m s)).
Proof.
  intros Hs. assert (Hv := vol_pos). assert (Hvv := vol_sqr).
  unfold d2_R, discounted_strike, phi, gauss. simpl.
  fold v. set (d := d1_R (with_spot m s)).
  assert (Hd : d * v = ln (s / K m) + (r m + 0.5 * sigma m ^ 2) * T m).
  { unfold d, d1_R. simpl. fold v. field. lra. }
  replace (- ((d - v) * (d - v)) / 2)
    with (- (d * d) / 2 + (ln (s / K m) + r m * T m)) by nra.
  rewrite !exp_plus, exp_ln by (apply Rdiv_lt_0_compat; lra).
  assert (He : exp (- r m * T m) * exp (r m * T m) = 1).
  { rewrite <- exp_plus. replace (- r m * T m + r m * T m) with 0 by ring.
    apply exp_0. }
  assert (Hp := sqrt_2PI_pos).
  replace (K m * exp (- r m * T m) *
           (exp (- (d * d) / 2) * (s / K m * exp (r m * T m)) / sqrt (2 * PI)))
    with (s * (exp (- (d * d) / 2) / sqrt (2 * PI))
          * (exp (- r m * T m) * exp (r m * T m))) by (field; lra).
  rewrite He. ring.
Qed.

Lemma d1_spot_derivative (s : R) :
  0 < s -> derivable_pt_lim (fun x => d1_R (with_spot m x)) s (/ (s * v)).
Proof.
  intros Hs. assert (Hv := vol_pos).
  assert (Hq : derivable_pt_lim (fun x => x / K m) s (/ K m)).
  { apply derivable_pt_lim_ext with (f := mult_real_fct (/ K m) id).
    - intros z. unfold mult_real_fct, id. field. lra.
    - replace (/ K m) with (/ K m * 1) at 2 by ring.
      apply derivable_pt_lim_scal, derivable_pt_lim_id. }
  assert (Hln := derivable_pt_lim_comp (fun x => x / K m) ln s _ _ Hq
                   (derivable_pt_lim_ln (s / K m)
                      ltac:(apply Rdiv_lt_0_compat; lra))).
  assert (Hnum := derivable_pt_lim_plus _
                    (fct_cte ((r m + 0.5 * sigma m ^ 2) * T m)) s _ _ Hln
                    (derivable_pt_lim_const _ s)).
  assert (Hall := derivable_pt_lim_scal _ (/ v) s _ Hnum).
  eapply derivable_pt_lim_ext; [|
    replace (/ (s * v)) with (/ v * (/ (s / K m) * / K m + 0));
    [exact Hall | field; lra]].
  intros z. unfold mult_real_fct, plus_fct, comp, fct_cte, d1_R. simpl.
  fold v. field. lra.
Qed.

(** The derivative of the call value in the spot is [Phi (d1)]: the
    delta. *)
Lemma call_spot_derivative (s : R) :
  0 < s ->
  derivable_pt_lim (fun x => call_R (with_spot m x)) s
    (Phi (d1_R (with_spot m s))).
Proof.
  intros Hs. assert (Hv := vol_pos).
  assert (HD := d1_spot_derivative s Hs).
  set (D := fun x => d1_R (with_spot m x)) in *.
  assert (H1 := derivable_pt_lim_comp D Phi s _ _ HD (Phi_derivative (D s))).
  assert (H2 := derivable_pt_lim_mult id _ s _ _ (derivable_pt_lim_id s) H1).
  assert (HD' : derivable_pt_lim (D - fct_cte v)%F s (/ (s * v) - 0)).
  { apply derivable_pt_lim_minus; [exact HD | apply derivable_pt_lim_const]. }
  assert (H3 := derivable_pt_lim_comp _ Phi s _ _ HD'
                  (Phi_derivative ((D - fct_cte v)%F s))).
  assert (H4 := derivable_pt_lim_scal _ (discounted_strike m) s _ H3).
  assert (H5 := derivable_pt_lim_minus _ _ s _ _ H2 H4).
  assert (Hid := discounted_strike_density s Hs).
  eapply derivable_pt_lim_ext; [| match type of H5 with
    | derivable_pt_lim _ _ ?l => replace (Phi (d1_R (with_spot m s))) with l
    end; [exact H5|]].
  - intros z. reflexivity.
  - unfold comp, minus_fct, fct_cte, id.
    change (discounted_strike m) with (discounted_strike (with_spot m s)).
    change (D s - v) with (d2_R (with_spot m s)).
    replace (discounted_strike (with_spot m s) *
             (phi (d2_R (with_spot m s)) * (/ (s * v) - 0)))
      with (discounted_strike (with_spot m s) * phi (d2_R (with_spot m s))
            * / (s * v)) by ring.
    rewrite Hid. unfold D. field. lra.
Qed.
End SpotSensitivity.

(** * The claims *)

Section Claims.
Import BlackScholes.

(** Exposes the fields of the concrete objects in the goal. *)
Ltac fields :=
  repeat match goal with
         | |- context [?m] =>
             is_const m;
             match type of m with self => idtac end;
             let m' := eval hnf in m in change m with m'
         end;
  cbv beta iota delta [valid S K T r sigma].

(** [put = call - S + K exp (-rT)], from [Phi x + Phi (-x) = 1]. *)
Lemma put_R_call_R (m : self) :
  put_R m = call_R m - S m + discounted_strike m.
Proof.
  unfold put_R, call_R.
  generalize (Phi_symmetry (d1_R m)) (Phi_symmetry (d2_R m)). intros H1 H2.
  replace (Phi (- d1_R m)) with (1 - Phi (d1_R m)) by lra.
  replace (Phi (- d2_R m)) with (1 - Phi (d2_R m)) by lra.
  ring.
Qed.



(** C2. Put-call parity on price: for every model with valid parameters
    (S > 0, K > 0, T >= 0, and sigma > 0 when T > 0) the call price minus
    the put price is [S - K exp(-rT)], over exact real arithmetic. *)
Theorem put_call_parity (m : self) :
  valid m ->
  exists c p : R,
    outcome (price_european_call m) = inr (Fin c) /\
    outcome (price_european_put m) = inr (Fin p) /\
    c - p = S m - K m * exp (- r m * T m).
Proof.
  intros (HS & HK & [HT | HT] & Hs).
  - exists (call_R m), (put_R m).
    rewrite price_european_call_run, price_european_put_run by auto.
    repeat split. rewrite put_R_call_R. unfold discounted_strike. ring.
  - symmetry in HT.
    exists (Rmax 0 (S m - K m)), (Rmax 0 (K m - S m)).
    rewrite price_european_call_run_expiry, price_european_put_run_expiry
      by assumption.
    repeat split. rewrite HT, Rmult_0_r, exp_0.
    unfold Rmax.
    destruct (Rle_dec 0 (S m - K m)); destruct (Rle_dec 0 (K m - S m)); lra.
Qed.

Lemma put_call_parity_witness :
  valid sample_option /\
  exists c p : R,
    outcome (price_european_call sample_option) = inr (Fin c) /\
    outcome (price_european_put sample_option) = inr (Fin p) /\
    c - p = S sample_option
            - K sample_option * exp (- r sample_option * T sample_option).
Proof.
  assert (H : valid sample_option) by (fields; lra).
  split; [exact H | exact (put_call_parity sample_option H)].
Defined.



(** At expiry both price methods still run [d1] (twice: once themselves
    and once inside [d2]) before they look at [T], and each run divides by
    [sigma * sqrt T = 0]. *)
Lemma expiry_runs_d1_twice (m : self) :
  0 < S m -> 0 < K m -> T m = 0 ->
  zero_divisor_warning (d1_expiry_warning m) /\
  warnings (d1 m) = [d1_expiry_warning m] /\
  warnings (price_european_call m)
  = [d1_expiry_warning m; d1_expiry_warning m] /\
  warnings (price_european_put m)
  = [d1_expiry_warning m; d1_expiry_warning m].
Proof.
  intros HS HK HT.
  rewrite d1_run_expiry, price_european_call_run_expiry,
    price_european_put_run_expiry by assumption.
  repeat split. unfold zero_divisor_warning, d1_expiry_warning.
  destruct (Req_EM_T (S m) (K m)); [right | left]; reflexivity.
Qed.

(** C4. The claim is that at T = 0 the price methods do not evaluate [d1]
    or [d2], so that no division by [sigma * sqrt T = 0] occurs.  The
    source calls [self.d1()] and [self.d2()] before it tests [self.T == 0]:
    on the test suite's option at expiry (S = K = 100, T = 0) both prices
    are 0, and each run has divided [0 / 0] twice. *)
Theorem expiring_price_divides_by_zero :
  d1 expiring_option
  = mkRes (inr NaN) [InvalidValue u_divide] expiring_option /\
  price_european_call expiring_option
  = mkRes (inr (Fin 0)) [InvalidValue u_divide; InvalidValue u_divide]
      expiring_option /\
  price_european_put expiring_option
  = mkRes (inr (Fin 0)) [InvalidValue u_divide; InvalidValue u_divide]
      expiring_option.
Proof.
  assert (HS : 0 < S expiring_option) by (fields; lra).
  assert (HK : 0 < K expiring_option) by (fields; lra).
  assert (HT : T expiring_option = 0) by reflexivity.
  assert (Hw : d1_expiry_warning expiring_option = InvalidValue u_divide).
  { unfold d1_expiry_warning.
    destruct (Req_EM_T (S expiring_option) (K expiring_option)) as [_|N];
      [reflexivity | contradiction N; reflexivity]. }
  assert (Hv : d1_at_expiry expiring_option = NaN).
  { unfold d1_at_expiry.
    destruct (Req_EM_T (S expiring_option) (K expiring_option)) as [_|N];
      [reflexivity | contradiction N; reflexivity]. }
  rewrite (d1_run_expiry _ HS HK HT),
    (price_european_call_run_expiry _ HS HK HT),
    (price_european_put_run_expiry _ HS HK HT), Hw, Hv.
  assert (H0 : Rmax 0 (100 - 100) = 0).
  { replace (100 - 100) with 0 by lra. apply Rmax_left. lra. }
  change (S expiring_option - K expiring_option) with (100 - 100).
  change (K expiring_option - S expiring_option) with (100 - 100).
  rewrite H0. repeat split.
Qed.










(** C9. Each of the twelve queries leaves the five stored fields as they
    were: the object after the query is the object before it, so a query
    repeated on it (the same one or another) runs exactly as on the
    original object and returns the same value. *)
Theorem queries_are_pure (q : query) (m : self) :
  state_after (call q m) = m /\
  (S (state_after (call q m)) = S m /\ K (state_after (call q m)) = K m /\
   T (state_after (call q m)) = T m /\ r (state_after (call q m)) = r m /\
   sigma (state_after (call q m)) = sigma m) /\
  (forall q', call q' (state_after (call q m)) = call q' m) /\
  outcome (call q (state_after (call q m))) = outcome (call q m).
Proof.
  assert (H : state_after (call q m) = m) by apply call_preserves.
  rewrite H. repeat split.
Qed.

(** C10. For every model with S > 0, K > 0, T > 0 and sigma > 0,
    [theta_european_call] minus [theta_european_put] is exactly
    [- r K exp(-rT)], over exact real arithmetic: the term
    [- S sigma phi(d1) / (2 sqrt T)] is shared and
    [Phi(d2) + Phi(-d2) = 1]. *)
Theorem theta_parity (m : self) :
  0 < S m -> 0 < K m -> 0 < T m -> 0 < sigma m ->
  exists tc tp : R,
    outcome (theta_european_call m) = inr (Fin tc) /\
    outcome (theta_european_put m) = inr (Fin tp) /\
    tc - tp = - r m * K m * exp (- r m * T m).
Proof.
  intros HS HK HT Hs.
  rewrite theta_european_call_run, theta_european_put_run by assumption.
  do 2 eexists. do 2 (split; [reflexivity|]).
  generalize (Phi_symmetry (d2_R m)). intros Hsym.
  replace (Phi (- d2_R m)) with (1 - Phi (d2_R m)) by lra.
  ring.
Qed.

Lemma theta_parity_witness :
  (0 < S sample_option /\ 0 < K sample_option /\ 0 < T sample_option /\
   0 < sigma sample_option) /\
  exists tc tp : R,
    outcome (theta_european_call sample_option) = inr (Fin tc) /\
    outcome (theta_european_put sample_option) = inr (Fin tp) /\
    tc - tp = - r sample_option * K sample_option
              * exp (- r sample_option * T sample_option).
Proof.
  split; [fields; lra|].
  apply (theta_parity sample_option); fields; lra.
Defined.
End Claims.

(** * Further properties of the class

    The Greeks in the interior of the domain, the Greeks as derivatives of
    the prices, bounds on the prices, and the behaviour at the edges of the
    domain. *)

(** The interior of the parameter domain. *)
Definition interior (m : BlackScholes.self) : Prop :=
  0 < BlackScholes.S m /\ 0 < BlackScholes.K m /\ 0 < BlackScholes.T m /\
  0 < BlackScholes.sigma m.

(** The number a query returns on [m]; 0 stands in when it raises or
    returns an infinity or nan. *)
Definition finite_value (c : M BlackScholes.self float64)
  (m : BlackScholes.self) : R :=
  match outcome (c m) with
  | inr (Fin x) => x
  | _ => 0
  end.

(** A query returns the finite number [x] on [m], emits no warning and
    leaves the object alone. *)
Definition returns_quietly (c : M BlackScholes.self float64)
  (m : BlackScholes.self) (x : R) : Prop :=
  c m = mkRes (inr (Fin x)) [] m.

(** The model [m] with one of its other parameters replaced. *)
Definition with_strike (m : BlackScholes.self) (k : R) : BlackScholes.self :=
  BlackScholes.mk (BlackScholes.S m) k (BlackScholes.T m) (BlackScholes.r m)
    (BlackScholes.sigma m).

Definition with_expiry (m : BlackScholes.self) (t : R) : BlackScholes.self :=
  BlackScholes.mk (BlackScholes.S m) (BlackScholes.K m) t (BlackScholes.r m)
    (BlackScholes.sigma m).

Definition with_rate (m : BlackScholes.self) (x : R) : BlackScholes.self :=
  BlackScholes.mk (BlackScholes.S m) (BlackScholes.K m) (BlackScholes.T m) x
    (BlackScholes.sigma m).

Definition with_sigma (m : BlackScholes.self) (x : R) : BlackScholes.self :=
  BlackScholes.mk (BlackScholes.S m) (BlackScholes.K m) (BlackScholes.T m)
    (BlackScholes.r m) x.

(** The closed forms of the Greeks. *)
Definition gamma_R (m : BlackScholes.self) : R :=
  phi (d1_R m)
  / (BlackScholes.S m * BlackScholes.sigma m * sqrt (BlackScholes.T m)).

Definition vega_R (m : BlackScholes.self) : R :=
  BlackScholes.S m * sqrt (BlackScholes.T m) * phi (d1_R m).

Definition theta_call_R (m : BlackScholes.self) : R :=
  - BlackScholes.S m * BlackScholes.sigma m * phi (d1_R m)
    / (2 * sqrt (BlackScholes.T m))
  - BlackScholes.r m * BlackScholes.K m
    * exp (- BlackScholes.r m * BlackScholes.T m) * Phi (d2_R m).

Definition theta_put_R (m : BlackScholes.self) : R :=
  - BlackScholes.S m * BlackScholes.sigma m * phi (d1_R m)
    / (2 * sqrt (BlackScholes.T m))
  + BlackScholes.r m * BlackScholes.K m
    * exp (- BlackScholes.r m * BlackScholes.T m) * Phi (- d2_R m).

Definition rho_call_R (m : BlackScholes.self) : R :=
  BlackScholes.K m * BlackScholes.T m
  * exp (- BlackScholes.r m * BlackScholes.T m) * Phi (d2_R m).

Definition rho_put_R (m : BlackScholes.self) : R :=
  - BlackScholes.K m * BlackScholes.T m
  * exp (- BlackScholes.r m * BlackScholes.T m) * Phi (- d2_R m).

(** The closed form of each query. *)
Definition closed_form (q : BlackScholes.query) (m : BlackScholes.self) : R :=
  match q with
  | BlackScholes.q_d1 => d1_R m
  | BlackScholes.q_d2 => d2_R m
  | BlackScholes.q_price_european_call => call_R m
  | BlackScholes.q_price_european_put => put_R m
  | BlackScholes.q_delta_european_call => Phi (d1_R m)
  | BlackScholes.q_delta_european_put => Phi (d1_R m) - 1
  | BlackScholes.q_gamma => gamma_R m
  | BlackScholes.q_theta_european_call => theta_call_R m
  | BlackScholes.q_theta_european_put => theta_put_R m
  | BlackScholes.q_vega => vega_R m
  | BlackScholes.q_rho_european_call => rho_call_R m
  | BlackScholes.q_rho_european_put => rho_put_R m
  end.

(** ** Every query in the interior *)

Section InteriorQueries.
Import BlackScholes.

Variable m : self.
Hypothesis Hm : interior m.

Lemma gamma_run : gamma m = mkRes (inr (Fin (gamma_R m))) [] m.
Proof.
  destruct Hm as (HS & HK & HT & Hs).
  unfold gamma. rewrite (bind_run _ _ _ _ (d1_run m HS HK HT Hs)).
  unfold_numpy.
  destruct (Rle_dec 0 (T m)) as [_|N]; [|lra].
  assert (Hd : 0 < S m * sigma m * sqrt (T m)).
  { apply Rmult_lt_0_compat; [apply Rmult_lt_0_compat; assumption|].
    apply sqrt_lt_R0. exact HT. }
  destruct (Req_EM_T (S m * sigma m * sqrt (T m)) 0) as [E|_]; [lra|].
  reflexivity.
Qed.

Lemma vega_run : vega m = mkRes (inr (Fin (vega_R m))) [] m.
Proof.
  destruct Hm as (HS & HK & HT & Hs).
  unfold vega. rewrite !bind_attr. unfold np_sqrt at 1.
  destruct (Rle_dec 0 (T m)) as [_|N]; [|lra].
  rewrite (bind_run _ _ _ (Fin (sqrt (T m)))) by reflexivity.
  rewrite (bind_run _ _ _ (Fin (S m * sqrt (T m)))) by reflexivity.
  rewrite (bind_run _ _ _ _ (d1_run m HS HK HT Hs)).
  reflexivity.
Qed.

Lemma rho_european_call_run :
  rho_european_call m = mkRes (inr (Fin (rho_call_R m))) [] m.
Proof.
  destruct Hm as (HS & HK & HT & Hs).
  unfold rho_european_call. rewrite !bind_attr.
  rewrite (bind_run _ _ _ (Fin (K m * T m * exp (- r m * T m)))) by reflexivity.
  rewrite (bind_run _ _ _ _ (d2_run m HS HK HT Hs)).
  reflexivity.
Qed.

Lemma rho_european_put_run :
  rho_european_put m = mkRes (inr (Fin (rho_put_R m))) [] m.
Proof.
  destruct Hm as (HS & HK & HT & Hs).
  unfold rho_european_put. rewrite !bind_attr.
  rewrite (bind_run _ _ _ (Fin (- K m * T m * exp (- r m * T m))))
    by reflexivity.
  rewrite (bind_run _ _ _ _ (d2_run m HS HK HT Hs)).
  reflexivity.
Qed.

Lemma call_run (q : query) : returns_quietly (call q) m (closed_form q m).
Proof.
  destruct Hm as (HS & HK & HT & Hs). unfold returns_quietly.
  destruct q; cbv beta iota delta [call closed_form].
  - apply d1_run; assumption.
  - apply d2_run; assumption.
  - apply price_european_call_run; assumption.
  - apply price_european_put_run; assumption.
  - apply delta_european_call_run; assumption.
  - apply delta_european_put_run; assumption.
  - apply gamma_run.
  - apply theta_european_call_run; assumption.
  - apply theta_european_put_run; assumption.
  - apply vega_run.
  - apply rho_european_call_run.
  - apply rho_european_put_run.
Qed.

Lemma finite_value_interior (q : query) :
  finite_value (call q) m = closed_form q m.
Proof. unfold finite_value. rewrite call_run. reflexivity. Qed.
End InteriorQueries.

(** ** The prices as functions of one parameter *)

(** The derivative of [s Phi(d) - D Phi(d - w)] when the spot [s], the
    discounted strike [D], [d = d1] and [w = sigma sqrt T] all move, at a
    point where [D phi(d - w) = s phi(d)]: the two density terms cancel
    but for the move of [w]. *)
Lemma value_derivative (s D d w : R -> R) (x s' D' d' w' : R) :
  derivable_pt_lim s x s' -> derivable_pt_lim D x D' ->
  derivable_pt_lim d x d' -> derivable_pt_lim w x w' ->
  D x * phi (d x - w x) = s x * phi (d x) ->
  derivable_pt_lim (fun y => s y * Phi (d y) - D y * Phi (d y - w y)) x
    (s' * Phi (d x) - D' * Phi (d x - w x) + s x * phi (d x) * w').
Proof.
  intros Hs HD Hd Hw Hid.
  assert (H1 := derivable_pt_lim_comp d Phi x _ _ Hd (Phi_derivative (d x))).
  assert (H2 := derivable_pt_lim_mult s _ x _ _ Hs H1).
  assert (Hdw := derivable_pt_lim_minus d w x _ _ Hd Hw).
  assert (H3 := derivable_pt_lim_comp _ Phi x _ _ Hdw
                  (Phi_derivative ((d - w)%F x))).
  assert (H4 := derivable_pt_lim_mult D _ x _ _ HD H3).
  assert (H5 := derivable_pt_lim_minus _ _ x _ _ H2 H4).
  eapply derivable_pt_lim_ext; [| match type of H5 with
    | derivable_pt_lim _ _ ?l =>
        replace (s' * Phi (d x) - D' * Phi (d x - w x) + s x * phi (d x) * w')
          with l
    end; [exact H5|]].
  - intros z. reflexivity.
  - unfold comp, minus_fct.
    replace (D x * (phi (d x - w x) * (d' - w')))
      with (D x * phi (d x - w x) * (d' - w')) by ring.
    rewrite Hid. ring.
Qed.

Section Sensitivities.
Import BlackScholes.

Variable m : self.
Hypothesis Hm : interior m.

Lemma with_spot_same : with_spot m (S m) = m.
Proof. destruct m. reflexivity. Qed.

Lemma density_identity :
  discounted_strike m * phi (d2_R m) = S m * phi (d1_R m).
Proof.
  destruct Hm as (HS & HK & HT & Hs).
  generalize (discounted_strike_density m HK HT Hs (S m) HS).
  rewrite with_spot_same. trivial.
Qed.

Lemma sqrt_expiry_pos : 0 < sqrt (T m).
Proof. apply sqrt_lt_R0. apply Hm. Qed.

Lemma d1_derivable_in_sigma :
  derivable_pt (fun x => d1_R (with_sigma m x)) (sigma m).
Proof.
  destruct Hm as (HS & HK & HT & Hs). assert (Hq := sqrt_expiry_pos).
  unfold d1_R. simpl. reg; nra.
Qed.

Lemma d1_derivable_in_rate :
  derivable_pt (fun x => d1_R (with_rate m x)) (r m).
Proof.
  destruct Hm as (HS & HK & HT & Hs). assert (Hq := sqrt_expiry_pos).
  unfold d1_R. simpl. reg; nra.
Qed.

Lemma d1_derivable_in_expiry :
  derivable_pt (fun x => d1_R (with_expiry m x)) (T m).
Proof.
  destruct Hm as (HS & HK & HT & Hs). assert (Hq := sqrt_expiry_pos).
  unfold d1_R. simpl. reg; nra.
Qed.

Lemma d1_derivable_in_strike :
  derivable_pt (fun x => d1_R (with_strike m x)) (K m).
Proof.
  destruct Hm as (HS & HK & HT & Hs). assert (Hq := sqrt_expiry_pos).
  unfold d1_R. simpl. reg.
  - lra.
  - exists (/ (S m / K m)). apply derivable_pt_lim_ln.
    apply Rdiv_lt_0_compat; assumption.
Qed.

(** The derivative of the call and put values along a path [f] of models
    through [m]. *)
Lemma call_R_derivative (f : R -> self) (x0 s' D' w' : R) :
  f x0 = m ->
  derivable_pt (fun y => d1_R (f y)) x0 ->
  derivable_pt_lim (fun y => S (f y)) x0 s' ->
  derivable_pt_lim (fun y => discounted_strike (f y)) x0 D' ->
  derivable_pt_lim (fun y => sigma (f y) * sqrt (T (f y))) x0 w' ->
  derivable_pt_lim (fun y => call_R (f y)) x0
    (s' * Phi (d1_R m) - D' * Phi (d2_R m) + S m * phi (d1_R m) * w').
Proof.
  intros Hf [d' Hd] Hs HD Hw.
  assert (H := value_derivative _ _ _ _ x0 _ _ _ _ Hs HD Hd Hw).
  cbv beta in H. rewrite Hf in H. apply H. apply density_identity.
Qed.

Lemma put_R_derivative (f : R -> self) (x0 s' D' w' : R) :
  f x0 = m ->
  derivable_pt (fun y => d1_R (f y)) x0 ->
  derivable_pt_lim (fun y => S (f y)) x0 s' ->
  derivable_pt_lim (fun y => discounted_strike (f y)) x0 D' ->
  derivable_pt_lim (fun y => sigma (f y) * sqrt (T (f y))) x0 w' ->
  derivable_pt_lim (fun y => put_R (f y)) x0
    (s' * Phi (d1_R m) - D' * Phi (d2_R m) + S m * phi (d1_R m) * w'
     - s' + D').
Proof.
  intros Hf Hd Hs HD Hw.
  assert (Hc := call_R_derivative f x0 s' D' w' Hf Hd Hs HD Hw).
  assert (H1 := derivable_pt_lim_minus _ _ x0 _ _ Hc Hs).
  assert (H2 := derivable_pt_lim_plus _ _ x0 _ _ H1 HD).
  eapply derivable_pt_lim_ext; [|exact H2].
  intros z. unfold plus_fct, minus_fct. rewrite put_R_call_R. reflexivity.
Qed.

Lemma constant_derivative (c x : R) : derivable_pt_lim (fun _ => c) x 0.
Proof. apply (derivable_pt_lim_const c x). Qed.

Lemma linear_derivative (c x : R) : derivable_pt_lim (fun y => y * c) x c.
Proof.
  apply derivable_pt_lim_ext with (f := mult_real_fct c id).
  - intros z. unfold mult_real_fct, id. ring.
  - replace c with (c * 1) at 2 by ring.
    apply derivable_pt_lim_scal, derivable_pt_lim_id.
Qed.

Lemma discount_derivative (k c x : R) :
  derivable_pt_lim (fun y => k * exp (- (c * y))) x (- c * (k * exp (- (c * x)))).
Proof.
  assert (Hin : derivable_pt_lim (fun y => - (c * y)) x (- c)).
  { apply derivable_pt_lim_ext with (f := mult_real_fct (- c) id).
    - intros z. unfold mult_real_fct, id. ring.
    - replace (- c) with (- c * 1) at 2 by ring.
      apply derivable_pt_lim_scal, derivable_pt_lim_id. }
  assert (He := derivable_pt_lim_comp _ exp x _ _ Hin
                  (derivable_pt_lim_exp (- (c * x)))).
  assert (Hk := derivable_pt_lim_scal _ k x _ He).
  eapply derivable_pt_lim_ext; [| replace (- c * (k * exp (- (c * x))))
    with (k * (exp (- (c * x)) * - c)) by ring; exact Hk].
  intros z. reflexivity.
Qed.

(** A parameter that does not move along the path. *)
Ltac constant_path :=
  first [ exact (constant_derivative (S m) _)
        | exact (constant_derivative (discounted_strike m) _)
        | exact (constant_derivative (sigma m * sqrt (T m)) _) ].

(** *** Volatility *)

Lemma call_sigma_derivative :
  derivable_pt_lim (fun x => call_R (with_sigma m x)) (sigma m) (vega_R m).
Proof.
  replace (vega_R m)
    with (0 * Phi (d1_R m) - 0 * Phi (d2_R m)
          + S m * phi (d1_R m) * sqrt (T m)) by (unfold vega_R; ring).
  apply call_R_derivative.
  - destruct m. reflexivity.
  - apply d1_derivable_in_sigma.
  - constant_path.
  - constant_path.
  - exact (linear_derivative (sqrt (T m)) (sigma m)).
Qed.

Lemma put_sigma_derivative :
  derivable_pt_lim (fun x => put_R (with_sigma m x)) (sigma m) (vega_R m).
Proof.
  replace (vega_R m)
    with (0 * Phi (d1_R m) - 0 * Phi (d2_R m)
          + S m * phi (d1_R m) * sqrt (T m) - 0 + 0) by (unfold vega_R; ring).
  apply put_R_derivative.
  - destruct m. reflexivity.
  - apply d1_derivable_in_sigma.
  - constant_path.
  - constant_path.
  - exact (linear_derivative (sqrt (T m)) (sigma m)).
Qed.

(** *** Interest rate *)

Lemma discounted_strike_rate_derivative :
  derivable_pt_lim (fun x => discounted_strike (with_rate m x)) (r m)
    (- T m * discounted_strike m).
Proof.
  generalize (discount_derivative (K m) (T m) (r m)). intros H.
  eapply derivable_pt_lim_ext; [| replace (- T m * discounted_strike m)
    with (- T m * (K m * exp (- (T m * r m))));
    [exact H | unfold discounted_strike; do 3 f_equal; ring]].
  intros z. unfold discounted_strike. simpl. do 2 f_equal. ring.
Qed.

Lemma call_rate_derivative :
  derivable_pt_lim (fun x => call_R (with_rate m x)) (r m) (rho_call_R m).
Proof.
  replace (rho_call_R m)
    with (0 * Phi (d1_R m) - (- T m * discounted_strike m) * Phi (d2_R m)
          + S m * phi (d1_R m) * 0)
    by (unfold rho_call_R, discounted_strike; ring).
  apply call_R_derivative.
  - destruct m. reflexivity.
  - apply d1_derivable_in_rate.
  - constant_path.
  - apply discounted_strike_rate_derivative.
  - constant_path.
Qed.

Lemma put_rate_derivative :
  derivable_pt_lim (fun x => put_R (with_rate m x)) (r m) (rho_put_R m).
Proof.
  replace (rho_put_R m)
    with (0 * Phi (d1_R m) - (- T m * discounted_strike m) * Phi (d2_R m)
          + S m * phi (d1_R m) * 0 - 0 + (- T m * discounted_strike m)).
  - apply put_R_derivative.
    + destruct m. reflexivity.
    + apply d1_derivable_in_rate.
    + constant_path.
    + apply discounted_strike_rate_derivative.
    + constant_path.
  - unfold rho_put_R, discounted_strike.
    generalize (Phi_symmetry (d2_R m)). intros Hsym.
    replace (Phi (- d2_R m)) with (1 - Phi (d2_R m)) by lra. ring.
Qed.

(** *** Time to expiry *)

Lemma discounted_strike_expiry_derivative :
  derivable_pt_lim (fun x => discounted_strike (with_expiry m x)) (T m)
    (- r m * discounted_strike m).
Proof.
  generalize (discount_derivative (K m) (r m) (T m)). intros H.
  eapply derivable_pt_lim_ext; [| replace (- r m * discounted_strike m)
    with (- r m * (K m * exp (- (r m * T m))));
    [exact H | unfold discounted_strike; do 3 f_equal; ring]].
  intros z. unfold discounted_strike. simpl. do 2 f_equal. ring.
Qed.

Lemma vol_expiry_derivative :
  derivable_pt_lim (fun x => sigma (with_expiry m x) * sqrt (T (with_expiry m x)))
    (T m) (sigma m / (2 * sqrt (T m))).
Proof.
  assert (Hq := sqrt_expiry_pos).
  assert (H := derivable_pt_lim_scal sqrt (sigma m) (T m) _
                 (derivable_pt_lim_sqrt (T m) ltac:(apply Hm))).
  eapply derivable_pt_lim_ext; [| replace (sigma m / (2 * sqrt (T m)))
    with (sigma m * / (2 * sqrt (T m))) by (field; lra); exact H].
  intros z. reflexivity.
Qed.

Lemma call_expiry_derivative :
  derivable_pt_lim (fun x => call_R (with_expiry m x)) (T m) (- theta_call_R m).
Proof.
  assert (Hq := sqrt_expiry_pos).
  replace (- theta_call_R m)
    with (0 * Phi (d1_R m) - (- r m * discounted_strike m) * Phi (d2_R m)
          + S m * phi (d1_R m) * (sigma m / (2 * sqrt (T m))))
    by (unfold theta_call_R, discounted_strike; field; lra).
  apply call_R_derivative.
  - destruct m. reflexivity.
  - apply d1_derivable_in_expiry.
  - constant_path.
  - apply discounted_strike_expiry_derivative.
  - apply vol_expiry_derivative.
Qed.

Lemma put_expiry_derivative :
  derivable_pt_lim (fun x => put_R (with_expiry m x)) (T m) (- theta_put_R m).
Proof.
  assert (Hq := sqrt_expiry_pos).
  replace (- theta_put_R m)
    with (0 * Phi (d1_R m) - (- r m * discounted_strike m) * Phi (d2_R m)
          + S m * phi (d1_R m) * (sigma m / (2 * sqrt (T m)))
          - 0 + (- r m * discounted_strike m)).
  - apply put_R_derivative.
    + destruct m. reflexivity.
    + apply d1_derivable_in_expiry.
    + constant_path.
    + apply discounted_strike_expiry_derivative.
    + apply vol_expiry_derivative.
  - unfold theta_put_R, discounted_strike.
    generalize (Phi_symmetry (d2_R m)). intros Hsym.
    replace (Phi (- d2_R m)) with (1 - Phi (d2_R m)) by lra. field. lra.
Qed.

(** *** Strike *)

Lemma discounted_strike_strike_derivative :
  derivable_pt_lim (fun x => discounted_strike (with_strike m x)) (K m)
    (exp (- r m * T m)).
Proof. apply (linear_derivative (exp (- r m * T m)) (K m)). Qed.

Lemma call_strike_derivative :
  derivable_pt_lim (fun x => call_R (with_strike m x)) (K m)
    (- exp (- r m * T m) * Phi (d2_R m)).
Proof.
  replace (- exp (- r m * T m) * Phi (d2_R m))
    with (0 * Phi (d1_R m) - exp (- r m * T m) * Phi (d2_R m)
          + S m * phi (d1_R m) * 0) by ring.
  apply call_R_derivative.
  - destruct m. reflexivity.
  - apply d1_derivable_in_strike.
  - constant_path.
  - apply discounted_strike_strike_derivative.
  - constant_path.
Qed.

Lemma put_strike_derivative :
  derivable_pt_lim (fun x => put_R (with_strike m x)) (K m)
    (exp (- r m * T m) * Phi (- d2_R m)).
Proof.
  replace (exp (- r m * T m) * Phi (- d2_R m))
    with (0 * Phi (d1_R m) - exp (- r m * T m) * Phi (d2_R m)
          + S m * phi (d1_R m) * 0 - 0 + exp (- r m * T m)).
  - apply put_R_derivative.
    + destruct m. reflexivity.
    + apply d1_derivable_in_strike.
    + constant_path.
    + apply discounted_strike_strike_derivative.
    + constant_path.
  - generalize (Phi_symmetry (d2_R m)). intros Hsym.
    replace (Phi (- d2_R m)) with (1 - Phi (d2_R m)) by lra. ring.
Qed.

(** *** Spot *)

Lemma call_spot_derivative_at :
  derivable_pt_lim (fun x => call_R (with_spot m x)) (S m) (Phi (d1_R m)).
Proof.
  destruct Hm as (HS & HK & HT & Hs).
  generalize (call_spot_derivative m HK HT Hs (S m) HS).
  rewrite with_spot_same. trivial.
Qed.

Lemma put_spot_derivative_at :
  derivable_pt_lim (fun x => put_R (with_spot m x)) (S m) (Phi (d1_R m) - 1).
Proof.
  assert (H1 := derivable_pt_lim_minus _ id (S m) _ _ call_spot_derivative_at
                  (derivable_pt_lim_id (S m))).
  assert (H2 := derivable_pt_lim_plus _ (fct_cte (discounted_strike m)) (S m)
                  _ _ H1 (derivable_pt_lim_const _ _)).
  eapply derivable_pt_lim_ext; [| replace (Phi (d1_R m) - 1)
    with (Phi (d1_R m) - 1 + 0) by ring; exact H2].
  intros z. unfold plus_fct, minus_fct, id, fct_cte.
  rewrite put_R_call_R. reflexivity.
Qed.

(** The delta as a function of the spot has derivative gamma. *)
Lemma delta_spot_derivative :
  derivable_pt_lim (fun x => Phi (d1_R (with_spot m x))) (S m) (gamma_R m).
Proof.
  destruct Hm as (HS & HK & HT & Hs). assert (Hq := sqrt_expiry_pos).
  assert (Hd := d1_spot_derivative m HK HT Hs (S m) HS).
  assert (H := derivable_pt_lim_comp _ Phi (S m) _ _ Hd
                 (Phi_derivative (d1_R (with_spot m (S m))))).
  rewrite with_spot_same in H.
  eapply derivable_pt_lim_ext; [| replace (gamma_R m)
    with (phi (d1_R m) * / (S m * (sigma m * sqrt (T m))));
    [exact H | unfold gamma_R; field; lra]].
  intros z. reflexivity.
Qed.
End Sensitivities.

(** ** Properties of the queries in the interior *)

Section InteriorProperties.
Import BlackScholes.

(** Exposes the fields of the concrete objects in the goal. *)
Ltac expose_fields :=
  repeat match goal with
         | |- context [?m] =>
             is_const m;
             match type of m with self => idtac end;
             let m' := eval hnf in m in change m with m'
         end;
  cbv beta iota delta [interior valid S K T r sigma].

Lemma sample_option_interior : interior sample_option.
Proof. expose_fields. lra. Qed.





Lemma gamma_R_pos (m : self) : interior m -> 0 < gamma_R m.
Proof.
  intros (HS & HK & HT & Hs). unfold gamma_R.
  apply Rdiv_lt_0_compat; [apply phi_pos|].
  apply Rmult_lt_0_compat; [apply Rmult_lt_0_compat; assumption|].
  apply sqrt_lt_R0. exact HT.
Qed.

Lemma vega_R_pos (m : self) : interior m -> 0 < vega_R m.
Proof.
  intros (HS & HK & HT & Hs). unfold vega_R.
  apply Rmult_lt_0_compat; [|apply phi_pos].
  apply Rmult_lt_0_compat; [assumption | apply sqrt_lt_R0; exact HT].
Qed.






End InteriorProperties.

(** ** The Greeks are the derivatives of what the price methods return *)

Section GreeksAreDerivatives.
Import BlackScholes.

(** Along a path of interior models the number a query returns is its
    closed form, so it has the derivative of the closed form. *)
Lemma finite_value_derivative (q : query) (f : R -> self) (a b x l : R) :
  a < x < b ->
  (forall y, a < y < b -> interior (f y)) ->
  derivable_pt_lim (fun y => closed_form q (f y)) x l ->
  derivable_pt_lim (fun y => finite_value (call q) (f y)) x l.
Proof.
  intros Hx Hint Hd.
  apply (derivable_pt_lim_locally_ext (fun y => closed_form q (f y)) _ x a b l
           Hx); [|exact Hd].
  intros z Hz. symmetry. apply finite_value_interior, Hint, Hz.
Qed.

Variable m : self.
Hypothesis Hm : interior m.

Lemma spot_path_interior (y : R) :
  0 < y < S m + 1 -> interior (with_spot m y).
Proof. destruct Hm as (HS & HK & HT & Hs). intros Hy. repeat split; simpl; lra. Qed.

Lemma sigma_path_interior (y : R) :
  0 < y < sigma m + 1 -> interior (with_sigma m y).
Proof. destruct Hm as (HS & HK & HT & Hs). intros Hy. repeat split; simpl; lra. Qed.

Lemma rate_path_interior (y : R) :
  r m - 1 < y < r m + 1 -> interior (with_rate m y).
Proof. destruct Hm as (HS & HK & HT & Hs). intros Hy. repeat split; simpl; lra. Qed.

Lemma expiry_path_interior (y : R) :
  0 < y < T m + 1 -> interior (with_expiry m y).
Proof. destruct Hm as (HS & HK & HT & Hs). intros Hy. repeat split; simpl; lra. Qed.

Lemma strike_path_interior (y : R) :
  0 < y < K m + 1 -> interior (with_strike m y).
Proof. destruct Hm as (HS & HK & HT & Hs). intros Hy. repeat split; simpl; lra. Qed.

End GreeksAreDerivatives.

Section GreekTheorems.
Import BlackScholes.

(** Replaces the number a query returns on [m] by its closed form. *)
Ltac closed m Hm q :=
  let E := fresh "E" in
  assert (E := finite_value_interior m Hm q);
  cbv beta iota delta [call closed_form] in E; rewrite E; clear E.

(** X6. In the interior, what [delta_european_call] and
    [delta_european_put] return are the derivatives in the spot of what
    [price_european_call] and [price_european_put] return, and what [gamma]
    returns is the derivative in the spot of either delta. *)
Theorem delta_gamma_are_spot_derivatives (m : self) :
  interior m ->
  derivable_pt_lim
    (fun s => finite_value price_european_call (with_spot m s)) (S m)
    (finite_value delta_european_call m) /\
  derivable_pt_lim
    (fun s => finite_value price_european_put (with_spot m s)) (S m)
    (finite_value delta_european_put m) /\
  derivable_pt_lim
    (fun s => finite_value delta_european_call (with_spot m s)) (S m)
    (finite_value gamma m) /\
  derivable_pt_lim
    (fun s => finite_value delta_european_put (with_spot m s)) (S m)
    (finite_value gamma m).
Proof.
  intros Hm.
  assert (Hx : 0 < S m < S m + 1) by (destruct Hm; lra).
  closed m Hm q_delta_european_call. closed m Hm q_delta_european_put. closed m Hm q_gamma.
  repeat split.
  - apply (finite_value_derivative q_price_european_call _ 0 (S m + 1));
      [exact Hx | exact (spot_path_interior m Hm)|].
    apply call_spot_derivative_at, Hm.
  - apply (finite_value_derivative q_price_european_put _ 0 (S m + 1));
      [exact Hx | exact (spot_path_interior m Hm)|].
    apply put_spot_derivative_at, Hm.
  - apply (finite_value_derivative q_delta_european_call _ 0 (S m + 1));
      [exact Hx | exact (spot_path_interior m Hm)|].
    apply delta_spot_derivative, Hm.
  - apply (finite_value_derivative q_delta_european_put _ 0 (S m + 1));
      [exact Hx | exact (spot_path_interior m Hm)|].
    assert (H := derivable_pt_lim_minus _ (fct_cte 1) (S m) _ _
                   (delta_spot_derivative m Hm) (derivable_pt_lim_const 1 _)).
    eapply derivable_pt_lim_ext; [| replace (gamma_R m)
      with (gamma_R m - 0) by ring; exact H].
    intros z. reflexivity.
Qed.

(** X7. In the interior, what [vega] returns is the derivative in the
    volatility of what [price_european_call] returns, and of what
    [price_european_put] returns. *)
Theorem vega_is_volatility_derivative (m : self) :
  interior m ->
  derivable_pt_lim
    (fun x => finite_value price_european_call (with_sigma m x)) (sigma m)
    (finite_value vega m) /\
  derivable_pt_lim
    (fun x => finite_value price_european_put (with_sigma m x)) (sigma m)
    (finite_value vega m).
Proof.
  intros Hm.
  assert (Hx : 0 < sigma m < sigma m + 1) by (destruct Hm as (_ & _ & _ & ?); lra).
  closed m Hm q_vega.
  split.
  - apply (finite_value_derivative q_price_european_call _ 0 (sigma m + 1));
      [exact Hx | exact (sigma_path_interior m Hm)|].
    apply call_sigma_derivative, Hm.
  - apply (finite_value_derivative q_price_european_put _ 0 (sigma m + 1));
      [exact Hx | exact (sigma_path_interior m Hm)|].
    apply put_sigma_derivative, Hm.
Qed.

(** X8. In the interior, what [rho_european_call] and [rho_european_put]
    return are the derivatives in the rate of what [price_european_call]
    and [price_european_put] return. *)
Theorem rho_is_rate_derivative (m : self) :
  interior m ->
  derivable_pt_lim
    (fun x => finite_value price_european_call (with_rate m x)) (r m)
    (finite_value rho_european_call m) /\
  derivable_pt_lim
    (fun x => finite_value price_european_put (with_rate m x)) (r m)
    (finite_value rho_european_put m).
Proof.
  intros Hm.
  assert (Hx : r m - 1 < r m < r m + 1) by lra.
  closed m Hm q_rho_european_call. closed m Hm q_rho_european_put.
  split.
  - apply (finite_value_derivative q_price_european_call _ (r m - 1) (r m + 1));
      [exact Hx | exact (rate_path_interior m Hm)|].
    apply call_rate_derivative, Hm.
  - apply (finite_value_derivative q_price_european_put _ (r m - 1) (r m + 1));
      [exact Hx | exact (rate_path_interior m Hm)|].
    apply put_rate_derivative, Hm.
Qed.

(** X9. In the interior, what [theta_european_call] and
    [theta_european_put] return are minus the derivatives in the time to
    expiry of what [price_european_call] and [price_european_put] return. *)
Theorem theta_is_expiry_derivative (m : self) :
  interior m ->
  derivable_pt_lim
    (fun x => finite_value price_european_call (with_expiry m x)) (T m)
    (- finite_value theta_european_call m) /\
  derivable_pt_lim
    (fun x => finite_value price_european_put (with_expiry m x)) (T m)
    (- finite_value theta_european_put m).
Proof.
  intros Hm.
  assert (Hx : 0 < T m < T m + 1) by (destruct Hm as (_ & _ & ? & _); lra).
  closed m Hm q_theta_european_call. closed m Hm q_theta_european_put.
  split.
  - apply (finite_value_derivative q_price_european_call _ 0 (T m + 1));
      [exact Hx | exact (expiry_path_interior m Hm)|].
    apply call_expiry_derivative, Hm.
  - apply (finite_value_derivative q_price_european_put _ 0 (T m + 1));
      [exact Hx | exact (expiry_path_interior m Hm)|].
    apply put_expiry_derivative, Hm.
Qed.

Lemma delta_gamma_are_spot_derivatives_witness :
  interior sample_option /\
  derivable_pt_lim
    (fun s => finite_value price_european_call (with_spot sample_option s))
    (S sample_option) (finite_value delta_european_call sample_option).
Proof.
  split; [exact sample_option_interior|].
  exact (proj1 (delta_gamma_are_spot_derivatives sample_option
                  sample_option_interior)).
Defined.

Lemma vega_is_volatility_derivative_witness :
  interior sample_option /\
  derivable_pt_lim
    (fun x => finite_value price_european_call (with_sigma sample_option x))
    (sigma sample_option) (finite_value vega sample_option).
Proof.
  split; [exact sample_option_interior|].
  exact (proj1 (vega_is_volatility_derivative sample_option
                  sample_option_interior)).
Defined.

Lemma rho_is_rate_derivative_witness :
  interior sample_option /\
  derivable_pt_lim
    (fun x => finite_value price_european_call (with_rate sample_option x))
    (r sample_option) (finite_value rho_european_call sample_option).
Proof.
  split; [exact sample_option_interior|].
  exact (proj1 (rho_is_rate_derivative sample_option sample_option_interior)).
Defined.

Lemma theta_is_expiry_derivative_witness :
  interior sample_option /\
  derivable_pt_lim
    (fun x => finite_value price_european_call (with_expiry sample_option x))
    (T sample_option) (- finite_value theta_european_call sample_option).
Proof.
  split; [exact sample_option_interior|].
  exact (proj1 (theta_is_expiry_derivative sample_option
                  sample_option_interior)).
Defined.



Lemma derivative_neg_gt (f f' : R -> R) (a b : R) :
  a < b ->
  (forall c, a <= c <= b -> derivable_pt_lim f c (f' c)) ->
  (forall c, a <= c <= b -> f' c < 0) ->
  f b < f a.
Proof.
  intros Hlt Hd Hneg.
  destruct (MVT_cor2 f f' a b Hlt Hd) as [c [Hc Hin]].
  assert (Hn : f' c < 0) by (apply Hneg; lra).
  nra.
Qed.




End GreekTheorems.

(** ** The tail of the normal distribution

    The Gaussian integral is also at least [sqrt (PI / 2)] in the limit,
    so [Phi] tends to 1; this gives the bound [1 - Phi t < phi t / t] on
    the tail and the positivity of the prices. *)

(** [exp (-N sin^2) >= cos^(2N)] *)
Lemma gauss_ge_cos_pow (n : nat) (x : R) :
  cos x ^ (2 * n) <= gauss (sqrt (2 * INR n) * sin x).
Proof.
  assert (HN : 0 <= INR n) by apply pos_INR.
  assert (Hc : sqrt (2 * INR n) * sqrt (2 * INR n) = 2 * INR n)
    by (apply sqrt_sqrt; lra).
  unfold gauss.
  replace (- (sqrt (2 * INR n) * sin x * (sqrt (2 * INR n) * sin x)) / 2)
    with (INR n * - (sin x * sin x)).
  2:{ replace (sqrt (2 * INR n) * sin x * (sqrt (2 * INR n) * sin x))
        with (sqrt (2 * INR n) * sqrt (2 * INR n) * (sin x * sin x)) by ring.
      rewrite Hc. field. }
  rewrite exp_INR_mult, pow_sqr.
  assert (Hs : cos x * cos x = 1 - sin x * sin x).
  { generalize (sin2_cos2 x). unfold Rsqr. lra. }
  apply pow_incr. split; [nra|].
  rewrite Hs. generalize (exp_ineq1_le (- (sin x * sin x))). lra.
Qed.

(** The integral of [gauss] up to [sqrt (2n)] is at least
    [sqrt (2n) * wallis (2n + 1)]. *)
Lemma gauss_int_ge_wallis (n : nat) :
  sqrt (2 * INR n) * wallis (S (2 * n)) <= gauss_int (sqrt (2 * INR n)).
Proof.
  set (c := sqrt (2 * INR n)).
  assert (Hc : 0 <= c) by apply sqrt_pos.
  assert (Hpi := PI_RGT_0).
  assert (H : gauss_int (c * sin 0) - c * cos_int (S (2 * n)) 0
              <= gauss_int (c * sin (PI / 2)) - c * cos_int (S (2 * n)) (PI / 2)).
  { apply (derivative_nonneg_le
             (fun x => gauss_int (c * sin x) - c * cos_int (S (2 * n)) x)
             (fun x => gauss (c * sin x) * (c * cos x)
                       - c * cos x ^ S (2 * n))); [lra | |].
    - intros x _.
      apply (derivable_pt_lim_minus (fun x => gauss_int (c * sin x))
               (fun x => c * cos_int (S (2 * n)) x)).
      + apply (derivable_pt_lim_comp (fun x => c * sin x) gauss_int).
        * apply (derivable_pt_lim_scal sin c x), derivable_pt_lim_sin.
        * apply derivable_pt_lim_integral_from_0.
      + apply (derivable_pt_lim_scal (cos_int (S (2 * n))) c x),
          cos_int_derivative.
    - intros x Hx.
      assert (Hcos : 0 <= cos x) by (apply cos_ge_0; lra).
      assert (Hg := gauss_ge_cos_pow n x). fold c in Hg.
      rewrite <- tech_pow_Rmult.
      assert (0 <= c * cos x) by (apply Rmult_le_pos; assumption).
      nra. }
  rewrite sin_0, sin_PI2, Rmult_0_r, Rmult_1_r, cos_int_0 in H.
  unfold gauss_int in H at 1. rewrite integral_from_0_at_0 in H.
  unfold wallis. lra.
Qed.

(** [1 - Phi (sqrt (2n)) <= 1 / (2 (n + 1))] *)
Lemma Phi_near_1 (n : nat) :
  1 - / (2 * INR (S n)) <= Phi (sqrt (2 * INR n)).
Proof.
  assert (HN : 0 <= INR n) by apply pos_INR.
  assert (HN1 : 0 < INR (S n)) by (apply lt_0_INR; lia).
  assert (Hpi := PI_RGT_0).
  assert (Hs := sqrt_2PI_pos). assert (Hss := sqrt_2PI_sqr).
  set (c := sqrt (2 * INR n)).
  assert (Hc : 0 <= c) by apply sqrt_pos.
  assert (Hcc : c * c = 2 * INR n) by (apply sqrt_sqrt; lra).
  set (w := wallis (S (2 * n))).
  assert (Hw0 : 0 <= w) by apply wallis_nonneg.
  assert (Hw : PI / (2 * INR (S (S (2 * n)))) <= w * w).
  { rewrite <- wallis_product. fold w.
    apply Rmult_le_compat_r; [exact Hw0 | apply wallis_decreasing]. }
  assert (Hg := gauss_int_ge_wallis n). fold c w in Hg.
  set (u := INR n / INR (S n)).
  assert (Hu0 : 0 <= u).
  { unfold u. apply Rmult_le_pos; [exact HN|]. left.
    apply Rinv_0_lt_compat. exact HN1. }
  assert (Hu1 : u <= 1).
  { unfold u. apply Rmult_le_reg_r with (r := INR (S n)); [exact HN1|].
    replace (INR n / INR (S n) * INR (S n)) with (INR n) by (field; lra).
    rewrite S_INR. lra. }
  assert (Hcw : PI / 2 * u <= (c * w) * (c * w)).
  { replace (c * w * (c * w)) with (c * c * (w * w)) by ring. rewrite Hcc.
    apply Rle_trans with (2 * INR n * (PI / (2 * INR (S (S (2 * n)))))).
    - right. unfold u. rewrite !S_INR, mult_INR. simpl INR.
      rewrite S_INR in HN1. field. lra.
    - apply Rmult_le_compat_l; [lra | exact Hw]. }
  assert (Hcw0 : 0 <= c * w) by (apply Rmult_le_pos; assumption).
  assert (HG : sqrt (2 * PI) / 2 * u <= gauss_int c).
  { apply Rle_trans with (c * w); [|exact Hg].
    apply Rnot_lt_le. intros Hlt.
    assert (Hsq : c * w * (c * w)
                  < sqrt (2 * PI) / 2 * u * (sqrt (2 * PI) / 2 * u)).
    { apply Rmult_le_0_lt_compat; assumption. }
    replace (sqrt (2 * PI) / 2 * u * (sqrt (2 * PI) / 2 * u))
      with (sqrt (2 * PI) * sqrt (2 * PI) / 4 * (u * u)) in Hsq by field.
    rewrite Hss in Hsq. nra. }
  unfold Phi.
  assert (Hdiv : u / 2 <= gauss_int c / sqrt (2 * PI)).
  { apply Rmult_le_reg_r with (r := sqrt (2 * PI)); [exact Hs|].
    replace (gauss_int c / sqrt (2 * PI) * sqrt (2 * PI)) with (gauss_int c)
      by (field; lra).
    lra. }
  assert (Hu : u = 1 - / INR (S n)).
  { unfold u. rewrite S_INR. rewrite S_INR in HN1. field. lra. }
  replace (/ (2 * INR (S n))) with (/ INR (S n) / 2) by (field; lra).
  lra.
Qed.

(** [Phi] comes within any [eps] of 1. *)
Lemma Phi_tends_to_1 (eps : R) :
  0 < eps -> exists x0, forall x, x0 <= x -> 1 - eps < Phi x.
Proof.
  intros Heps.
  destruct (archimed_cor1 eps Heps) as [N [HN HN0]].
  exists (sqrt (2 * INR N)). intros x Hx.
  assert (H := Phi_near_1 N).
  assert (HN1 : 0 < INR N) by (apply lt_0_INR; exact HN0).
  assert (Hle : / (2 * INR (S N)) < / INR N).
  { apply Rinv_lt_contravar; [|rewrite S_INR; lra].
    rewrite S_INR. nra. }
  assert (Hmono : Phi (sqrt (2 * INR N)) <= Phi x).
  { destruct Hx as [Hx | <-]; [left; apply Phi_increasing; exact Hx | lra]. }
  lra.
Qed.

Lemma phi_derivative (x : R) : derivable_pt_lim phi x (- x * phi x).
Proof.
  assert (Hs := sqrt_2PI_pos).
  assert (Hin : derivable_pt_lim (fun t => - (t * t) / 2) x (- x)).
  { apply derivable_pt_lim_ext with
      (f := mult_real_fct (- / 2) (id * id)%F).
    - intros z. unfold mult_real_fct, mult_fct, id. field.
    - replace (- x) with (- / 2 * (1 * id x + id x * 1))
        by (unfold id; field).
      apply derivable_pt_lim_scal.
      apply derivable_pt_lim_mult; apply derivable_pt_lim_id. }
  assert (He := derivable_pt_lim_comp _ exp x _ _ Hin
                  (derivable_pt_lim_exp (- (x * x) / 2))).
  assert (Hk := derivable_pt_lim_scal _ (/ sqrt (2 * PI)) x _ He).
  eapply derivable_pt_lim_ext; [| replace (- x * phi x)
    with (/ sqrt (2 * PI) * (exp (- (x * x) / 2) * - x))
    by (unfold phi, gauss; field; lra); exact Hk].
  intros z. unfold mult_real_fct, comp, phi, gauss. field. lra.
Qed.

(** The tail bound [1 - Phi t < phi t / t] for [t > 0]. *)
Lemma Phi_tail_bound (t : R) : 0 < t -> 1 - Phi t < phi t / t.
Proof.
  intros Ht.
  set (q := fun x => phi x / x - (1 - Phi x)).
  assert (Hq' : forall x, 0 < x ->
                  derivable_pt_lim q x (- (phi x / (x * x)))).
  { intros x Hx.
    assert (H1 := derivable_pt_lim_div phi id x _ _ (phi_derivative x)
                    (derivable_pt_lim_id x) ltac:(unfold id; lra)).
    assert (H2 := derivable_pt_lim_minus (fct_cte 1) Phi x _ _
                    (derivable_pt_lim_const 1 x) (Phi_derivative x)).
    assert (H3 := derivable_pt_lim_minus _ _ x _ _ H1 H2).
    eapply derivable_pt_lim_ext; [| replace (- (phi x / (x * x)))
      with ((- x * phi x * id x - 1 * phi x) / (id x)² - (0 - phi x))
      by (unfold id, Rsqr; field; lra); exact H3].
    intros z. reflexivity. }
  assert (Hdec : forall a b, 0 < a -> a < b -> q b < q a).
  { intros a b Ha Hab.
    apply (derivative_neg_gt q (fun x => - (phi x / (x * x)))); [exact Hab| |].
    - intros c Hc. apply Hq'. lra.
    - intros c Hc. assert (Hp := phi_pos c).
      assert (0 < phi c / (c * c)); [|lra].
      apply Rdiv_lt_0_compat; [exact Hp | nra]. }
  assert (Hge : forall a, 0 < a -> 0 <= q a).
  { intros a Ha. apply Rnot_lt_le. intros Hneg.
    destruct (Phi_tends_to_1 (- q a) ltac:(lra)) as [x0 Hx0].
    set (b := Rmax x0 a + 1).
    assert (Hb : a < b) by (unfold b; generalize (Rmax_r x0 a); lra).
    assert (Hbx : x0 <= b) by (unfold b; generalize (Rmax_l x0 a); lra).
    assert (H1 := Hdec a b Ha Hb). assert (H2 := Hx0 b Hbx).
    assert (H3 : 0 < phi b / b).
    { apply Rdiv_lt_0_compat; [apply phi_pos | lra]. }
    unfold q in H1, Hneg, H2 |- *. unfold q in H1. lra. }
  assert (H := Hdec t (t + 1) Ht ltac:(lra)).
  assert (H' := Hge (t + 1) ltac:(lra)).
  unfold q in H, H'. lra.
Qed.

(** [phi x + x Phi x > 0] everywhere. *)
Lemma phi_plus_x_Phi_pos (x : R) : 0 < phi x + x * Phi x.
Proof.
  assert (Hp := phi_pos x). assert (HP := Phi_pos x).
  destruct (Rle_lt_dec 0 x) as [Hx | Hx].
  - assert (0 <= x * Phi x) by (apply Rmult_le_pos; lra). lra.
  - assert (Ht := Phi_tail_bound (- x) ltac:(lra)).
    rewrite phi_even in Ht.
    replace (1 - Phi (- x)) with (Phi x) in Ht
      by (generalize (Phi_symmetry x); lra).
    apply Rmult_lt_compat_r with (r := - x) in Ht; [|lra].
    replace (phi x / - x * - x) with (phi x) in Ht by (field; lra).
    lra.
Qed.

(** [Phi (d + v) exp (d v + v^2/2) > Phi d] for [v > 0]. *)
Lemma Phi_shift (d v : R) :
  0 < v -> Phi d < Phi (d + v) * exp (d * v + v * v / 2).
Proof.
  intros Hv.
  set (h := fun y => Phi (d + y) * exp (d * y + y * y / 2)).
  assert (H : h 0 < h v).
  { apply (derivative_pos_lt h
             (fun y => exp (d * y + y * y / 2)
                       * (phi (d + y) + (d + y) * Phi (d + y))));
      [exact Hv | |].
    - intros y _.
      assert (H1 : derivable_pt_lim (fun z => d + z) y 1).
      { replace 1 with (0 + 1) by ring.
        apply (derivable_pt_lim_plus (fct_cte d) id);
          [apply derivable_pt_lim_const | apply derivable_pt_lim_id]. }
      assert (H2 := derivable_pt_lim_comp _ Phi y _ _ H1
                      (Phi_derivative (d + y))).
      assert (H3 : derivable_pt_lim (fun z => d * z + z * z / 2) y (d + y)).
      { apply derivable_pt_lim_ext with
          (f := (mult_real_fct d id + mult_real_fct (/ 2) (id * id))%F).
        - intros z. unfold plus_fct, mult_real_fct, mult_fct, id. field.
        - replace (d + y) with (d * 1 + / 2 * (1 * id y + id y * 1))
            by (unfold id; field).
          apply derivable_pt_lim_plus;
            [apply derivable_pt_lim_scal, derivable_pt_lim_id|].
          apply derivable_pt_lim_scal.
          apply derivable_pt_lim_mult; apply derivable_pt_lim_id. }
      assert (H4 := derivable_pt_lim_comp _ exp y _ _ H3
                      (derivable_pt_lim_exp (d * y + y * y / 2))).
      assert (H5 := derivable_pt_lim_mult _ _ y _ _ H2 H4).
      eapply derivable_pt_lim_ext; [| match type of H5 with
        | derivable_pt_lim _ _ ?l =>
            replace (exp (d * y + y * y / 2)
                     * (phi (d + y) + (d + y) * Phi (d + y))) with l
        end; [exact H5 | unfold comp; ring]].
      intros z. reflexivity.
    - intros y _. apply Rmult_lt_0_compat;
        [apply exp_pos | apply phi_plus_x_Phi_pos]. }
  unfold h in H.
  rewrite Rplus_0_r, Rmult_0_r, Rmult_0_l in H.
  replace (0 + 0 / 2) with 0 in H by field.
  rewrite exp_0, Rmult_1_r in H. exact H.
Qed.

(** ** Bounds on the prices *)

Lemma phi_shift_ratio (d v : R) :
  phi (d + v) = phi d * exp (- (d * v + v * v / 2)).
Proof.
  unfold phi, gauss.
  replace (- ((d + v) * (d + v)) / 2)
    with (- (d * d) / 2 + - (d * v + v * v / 2)) by field.
  rewrite exp_plus. unfold Rdiv. ring.
Qed.

Section PriceBounds.
Import BlackScholes.

Variable m : self.
Hypothesis Hm : interior m.

Let v : R := sigma m * sqrt (T m).

Lemma total_volatility_pos : 0 < v.
Proof.
  destruct Hm as (HS & HK & HT & Hs). unfold v.
  apply Rmult_lt_0_compat; [exact Hs | apply sqrt_lt_R0, HT].
Qed.

Lemma discounted_strike_pos : 0 < discounted_strike m.
Proof.
  destruct Hm as (HS & HK & HT & Hs). unfold discounted_strike.
  apply Rmult_lt_0_compat; [exact HK | apply exp_pos].
Qed.

(** [S = K exp(-rT) exp (d2 v + v^2/2)] *)
Lemma spot_from_discounted_strike :
  S m = discounted_strike m * exp (d2_R m * v + v * v / 2).
Proof.
  assert (Hid := density_identity m Hm).
  assert (Hd : d1_R m = d2_R m + v) by (unfold d2_R, v; ring).
  rewrite Hd, phi_shift_ratio, exp_Ropp in Hid.
  assert (Hp := phi_pos (d2_R m)).
  assert (He := exp_pos (d2_R m * v + v * v / 2)).
  apply Rmult_eq_reg_r with (r := phi (d2_R m) * / exp (d2_R m * v + v * v / 2)).
  - rewrite <- Hid. field. lra.
  - apply Rgt_not_eq, Rmult_lt_0_compat; [exact Hp|].
    apply Rinv_0_lt_compat. exact He.
Qed.

Lemma call_R_pos : 0 < call_R m.
Proof.
  assert (Hv := total_volatility_pos). assert (HD := discounted_strike_pos).
  assert (Hd : d1_R m = d2_R m + v) by (unfold d2_R, v; ring).
  assert (Hsh := Phi_shift (d2_R m) v Hv).
  unfold call_R. rewrite spot_from_discounted_strike at 1. rewrite Hd.
  nra.
Qed.

Lemma put_R_pos : 0 < put_R m.
Proof.
  assert (Hv := total_volatility_pos). assert (HD := discounted_strike_pos).
  assert (HS : 0 < S m) by apply Hm.
  assert (Hd : - d2_R m = - d1_R m + v) by (unfold d2_R, v; ring).
  assert (Hsh := Phi_shift (- d1_R m) v Hv).
  assert (HDS : discounted_strike m
                = S m * exp (- d1_R m * v + v * v / 2)).
  { rewrite spot_from_discounted_strike at 1.
    rewrite Rmult_assoc, <- exp_plus.
    replace (d2_R m * v + v * v / 2 + (- d1_R m * v + v * v / 2)) with 0
      by (unfold d2_R; fold v; field).
    rewrite exp_0. ring. }
  unfold put_R. rewrite HDS at 1. rewrite Hd.
  nra.
Qed.
End PriceBounds.

Section PriceBoundTheorems.
Import BlackScholes.


End PriceBoundTheorems.

(** ** Outside the domain *)

Lemma bind_outcome_run {St A B : Type} (c : M St A) (k : A -> M St B) (s : St)
      (a : A) (w : list RuntimeWarning) :
  c s = mkRes (inr a) w s -> outcome (bind c k s) = outcome (k a s).
Proof. intros E. rewrite (bind_run_warn c k s a w E). reflexivity. Qed.

Section NegativeExpiry.
Import BlackScholes.

Variable m : self.
Hypothesis HK : K m <> 0.
Hypothesis HT : T m < 0.

(** With [T < 0] the square root is nan, and so is [d1]. *)
Lemma d1_run_negative_expiry :
  exists w, In (InvalidValue u_sqrt) w /\ d1 m = mkRes (inr NaN) w m.
Proof.
  unfold d1. unfold_numpy.
  destruct (Req_EM_T (K m) 0) as [E|_]; [contradiction|]. cbv beta iota.
  destruct (Rlt_dec 0 (S m / K m)); cbv beta iota;
    [|destruct (Req_EM_T (S m / K m) 0); cbv beta iota];
    (destruct (Rle_dec 0 (T m)) as [N|_]; [lra|]); cbv beta iota;
    (eexists; split; [|reflexivity]); simpl; auto.
Qed.

Lemma d2_run_negative_expiry :
  exists w, d2 m = mkRes (inr NaN) w m.
Proof.
  destruct d1_run_negative_expiry as [w [_ Hw]].
  unfold d2. rewrite (bind_run_warn _ _ _ _ _ Hw). unfold_numpy.
  destruct (Rle_dec 0 (T m)) as [N|_]; [lra|].
  eexists. reflexivity.
Qed.

Lemma call_negative_expiry (q : query) : outcome (call q m) = inr NaN.
Proof.
  destruct d1_run_negative_expiry as [w1 [_ H1]].
  destruct d2_run_negative_expiry as [w2 H2].
  destruct q; cbv beta iota delta
    [call price_european_call price_european_put delta_european_call
     delta_european_put gamma theta_european_call theta_european_put vega
     rho_european_call rho_european_put];
    try (rewrite H1; reflexivity); try (rewrite H2; reflexivity);
    rewrite ?bind_attr;
    rewrite ?(bind_outcome_run _ _ _ _ _ H1);
    rewrite ?(bind_outcome_run _ _ _ _ _ H2);
    unfold_numpy;
    repeat match goal with
           | |- context [Rle_dec 0 (T m)] =>
               destruct (Rle_dec 0 (T m)) as [?N|_]; [lra|]; cbv beta iota
           | |- context [Req_EM_T (T m) 0] =>
               destruct (Req_EM_T (T m) 0) as [?E|_]; [lra|]; cbv beta iota
           | |- context [d1 m] => rewrite H1; cbv beta iota
           | |- context [d2 m] => rewrite H2; cbv beta iota
           end;
    reflexivity.
Qed.
End NegativeExpiry.

(** ** The other Greeks at expiry *)

Section ExpiryGreeks.
Import BlackScholes.

Variable m : self.
Hypothesis HS : 0 < S m.
Hypothesis HK : 0 < K m.
Hypothesis HT : T m = 0.

Lemma delta_european_call_expiry :
  outcome (delta_european_call m) = inr (norm_cdf (d1_at_expiry m)).
Proof.
  unfold delta_european_call.
  rewrite (bind_outcome_run _ _ _ _ _ (d1_run_expiry m HS HK HT)).
  reflexivity.
Qed.

Lemma delta_european_put_expiry :
  outcome (delta_european_put m) =
  inr (match d1_at_expiry m with
       | PInf => Fin 0
       | NInf => Fin (-1)
       | _ => NaN
       end).
Proof.
  unfold delta_european_put.
  rewrite (bind_outcome_run _ _ _ _ _ (d1_run_expiry m HS HK HT)).
  unfold d1_at_expiry.
  destruct (Req_EM_T (S m) (K m)); [reflexivity|].
  destruct (Rlt_dec (K m) (S m)); simpl; do 2 f_equal; lra.
Qed.

Lemma theta_european_call_expiry :
  outcome (theta_european_call m) = inr NaN.
Proof.
  unfold theta_european_call.
  rewrite (bind_outcome_run _ _ _ _ _ (d1_run_expiry m HS HK HT)).
  rewrite (bind_outcome_run _ _ _ _ _ (d2_run_expiry m HS HK HT)).
  unfold d1_at_expiry.
  destruct (Req_EM_T (S m) (K m));
    [|destruct (Rlt_dec (K m) (S m))];
    unfold_numpy; rewrite HT;
    (destruct (Rle_dec 0 0) as [_|N]; [|lra]); cbv beta iota;
    try reflexivity;
    rewrite sqrt_0, !Rmult_0_r;
    (destruct (Req_EM_T 0 0) as [_|N]; [reflexivity | lra]).
Qed.

Lemma theta_european_put_expiry :
  outcome (theta_european_put m) = inr NaN.
Proof.
  unfold theta_european_put.
  rewrite (bind_outcome_run _ _ _ _ _ (d1_run_expiry m HS HK HT)).
  rewrite (bind_outcome_run _ _ _ _ _ (d2_run_expiry m HS HK HT)).
  unfold d1_at_expiry.
  destruct (Req_EM_T (S m) (K m));
    [|destruct (Rlt_dec (K m) (S m))];
    unfold_numpy; rewrite HT;
    (destruct (Rle_dec 0 0) as [_|N]; [|lra]); cbv beta iota;
    try reflexivity;
    rewrite sqrt_0, !Rmult_0_r;
    (destruct (Req_EM_T 0 0) as [_|N]; [reflexivity | lra]).
Qed.

Lemma rho_european_call_expiry :
  outcome (rho_european_call m) =
  inr (if Req_EM_T (S m) (K m) then NaN else Fin 0).
Proof.
  unfold rho_european_call. rewrite !bind_attr.
  rewrite (bind_run _ _ _ (Fin (K m * T m * exp (- r m * T m)))) by reflexivity.
  rewrite (bind_outcome_run _ _ _ _ _ (d2_run_expiry m HS HK HT)).
  unfold d1_at_expiry.
  destruct (Req_EM_T (S m) (K m)); [reflexivity|].
  destruct (Rlt_dec (K m) (S m)); simpl; do 2 f_equal; rewrite HT; ring.
Qed.

Lemma rho_european_put_expiry :
  outcome (rho_european_put m) =
  inr (if Req_EM_T (S m) (K m) then NaN else Fin 0).
Proof.
  unfold rho_european_put. rewrite !bind_attr.
  rewrite (bind_run _ _ _ (Fin (- K m * T m * exp (- r m * T m))))
    by reflexivity.
  rewrite (bind_outcome_run _ _ _ _ _ (d2_run_expiry m HS HK HT)).
  unfold d1_at_expiry.
  destruct (Req_EM_T (S m) (K m)); [reflexivity|].
  destruct (Rlt_dec (K m) (S m)); simpl; do 2 f_equal; rewrite HT; ring.
Qed.
End ExpiryGreeks.

(** The model [m] with spot and strike both multiplied by [lam]. *)
Definition scaled (m : BlackScholes.self) (lam : R) : BlackScholes.self :=
  BlackScholes.mk (lam * BlackScholes.S m) (lam * BlackScholes.K m)
    (BlackScholes.T m) (BlackScholes.r m) (BlackScholes.sigma m).

Section EdgeTheorems.
Import BlackScholes.







Lemma d1_R_scaled (m : self) (lam : R) :
  0 < lam -> K m <> 0 -> d1_R (scaled m lam) = d1_R m.
Proof.
  intros Hl HK. unfold d1_R. simpl.
  replace (lam * S m / (lam * K m)) with (S m / K m) by (field; lra).
  reflexivity.
Qed.


End EdgeTheorems.

Section AtTheMoney.
Import BlackScholes.

(** At the money [d1] is [(r + sigma^2/2) sqrt(T) / sigma], so the density
    at [d1] depends on [T] through an exponential only. *)
Lemma atm_gauss (m : self) :
  interior m -> S m = K m ->
  gauss (d1_R m)
  = exp (- ((r m + 0.5 * sigma m ^ 2) ^ 2 / sigma m ^ 2 * T m) / 2).
Proof.
  intros (HS & HK & HT & Hs) E.
  assert (Hq : 0 < sqrt (T m)) by (apply sqrt_lt_R0; exact HT).
  assert (Hqq : sqrt (T m) * sqrt (T m) = T m) by (apply sqrt_sqrt; lra).
  unfold gauss, d1_R. apply f_equal.
  replace (S m / K m) with 1 by (rewrite E; field; lra).
  rewrite ln_1. set (q := sqrt (T m)) in *. rewrite <- Hqq.
  field. split; lra.
Qed.

Lemma atm_gamma_decreasing (m : self) (t2 : R) :
  interior m -> S m = K m -> T m < t2 ->
  gamma_R (with_expiry m t2) < gamma_R m.
Proof.
  intros Hm E Ht. assert (Hm' := Hm). destruct Hm' as (HS & HK & HT & Hs).
  assert (Hm2 : interior (with_expiry m t2)) by (repeat split; simpl; lra).
  assert (Hq1 : 0 < sqrt (T m)) by (apply sqrt_lt_R0; exact HT).
  assert (Hq : sqrt (T m) < sqrt t2) by (apply sqrt_lt_1; lra).
  assert (Ha : 0 <= (r m + 0.5 * sigma m ^ 2) ^ 2 / sigma m ^ 2).
  { apply Rmult_le_pos; [apply pow2_ge_0|].
    apply Rlt_le, Rinv_0_lt_compat. nra. }
  assert (HP : phi (d1_R (with_expiry m t2)) <= phi (d1_R m)).
  { unfold phi. apply Rmult_le_compat_r.
    - apply Rlt_le, Rinv_0_lt_compat, sqrt_2PI_pos.
    - rewrite (atm_gauss m Hm E), (atm_gauss _ Hm2 E).
  cbn [with_expiry T r sigma S K].
      set (a := (r m + 0.5 * sigma m ^ 2) ^ 2 / sigma m ^ 2) in *.
      destruct (Req_dec a 0) as [Z|NZ].
      + rewrite Z. right. apply f_equal. field.
      + left. apply exp_increasing. nra. }
  unfold gamma_R. cbn [with_expiry T r sigma S K].
  assert (HD1 : 0 < S m * sigma m * sqrt (T m)).
  { repeat apply Rmult_lt_0_compat; assumption. }
  assert (HD : S m * sigma m * sqrt (T m) < S m * sigma m * sqrt t2).
  { apply Rmult_lt_compat_l; [apply Rmult_lt_0_compat; assumption | exact Hq]. }
  apply Rle_lt_trans with (phi (d1_R m) / (S m * sigma m * sqrt t2)).
  - apply Rmult_le_compat_r; [|exact HP].
    apply Rlt_le, Rinv_0_lt_compat. lra.
  - apply Rmult_lt_compat_l; [apply phi_pos|].
    apply Rinv_lt_contravar; [|exact HD].
    apply Rmult_lt_0_compat; lra.
Qed.

Lemma atm_vega_increasing (m : self) (t2 : R) :
  interior m -> S m = K m -> T m < t2 ->
  (r m + 0.5 * sigma m ^ 2) ^ 2 * t2 <= sigma m ^ 2 ->
  vega_R m < vega_R (with_expiry m t2).
Proof.
  intros Hm E Ht Hsmall. assert (Hm' := Hm).
  destruct Hm' as (HS & HK & HT & Hs).
  assert (Hm2 : interior (with_expiry m t2)) by (repeat split; simpl; lra).
  assert (Hq1 : 0 < sqrt (T m)) by (apply sqrt_lt_R0; exact HT).
  assert (Hq : sqrt (T m) < sqrt t2) by (apply sqrt_lt_1; lra).
  assert (Hqq1 : sqrt (T m) * sqrt (T m) = T m) by (apply sqrt_sqrt; lra).
  assert (Hqq2 : sqrt t2 * sqrt t2 = t2) by (apply sqrt_sqrt; lra).
  assert (Ha : 0 <= (r m + 0.5 * sigma m ^ 2) ^ 2 / sigma m ^ 2).
  { apply Rmult_le_pos; [apply pow2_ge_0|].
    apply Rlt_le, Rinv_0_lt_compat. nra. }
  assert (Hat : (r m + 0.5 * sigma m ^ 2) ^ 2 / sigma m ^ 2 * t2 <= 1).
  { apply Rmult_le_reg_r with (sigma m ^ 2); [nra|].
    replace ((r m + 0.5 * sigma m ^ 2) ^ 2 / sigma m ^ 2 * t2 * sigma m ^ 2)
      with ((r m + 0.5 * sigma m ^ 2) ^ 2 * t2) by (field; lra).
    lra. }
  unfold vega_R, phi.
  rewrite (atm_gauss m Hm E), (atm_gauss _ Hm2 E).
  cbn [with_expiry T r sigma S K].
  set (a := (r m + 0.5 * sigma m ^ 2) ^ 2 / sigma m ^ 2) in *.
  set (q1 := sqrt (T m)) in *. set (q2 := sqrt t2) in *.
  assert (HE : exp (- (a * T m) / 2) * (1 - a * (t2 - T m) / 2)
               <= exp (- (a * t2) / 2)).
  { replace (- (a * t2) / 2)
      with (- (a * T m) / 2 + - (a * (t2 - T m) / 2)) by field.
    rewrite exp_plus. apply Rmult_le_compat_l; [apply Rlt_le, exp_pos|].
    generalize (exp_ineq1_le (- (a * (t2 - T m) / 2))). lra. }
  assert (Hmain : q1 < q2 * (1 - a * (t2 - T m) / 2)).
  { rewrite <- Hqq1, <- Hqq2.
    assert (Hlt : a * q2 * (q2 + q1) / 2 < 1).
    { destruct (Req_dec a 0) as [Z|NZ]; [rewrite Z; lra|].
      assert (Haq : 0 < a * q2) by (apply Rmult_lt_0_compat; lra).
      assert (a * q2 * ((q2 + q1) / 2) < a * q2 * q2).
      { apply Rmult_lt_compat_l; lra. }
      rewrite <- Hqq2 in Hat. lra. }
    assert (0 < (q2 - q1) * (1 - a * q2 * (q2 + q1) / 2)).
    { apply Rmult_lt_0_compat; lra. }
    lra. }
  assert (HE1 : 0 < exp (- (a * T m) / 2)) by apply exp_pos.
  assert (Hgoal : q1 * exp (- (a * T m) / 2) < q2 * exp (- (a * t2) / 2)).
  { apply Rlt_le_trans
      with (q2 * (exp (- (a * T m) / 2) * (1 - a * (t2 - T m) / 2))).
    - rewrite (Rmult_comm (exp _)), <- Rmult_assoc.
      apply Rmult_lt_compat_r; assumption.
    - apply Rmult_le_compat_l; [lra | exact HE]. }
  assert (Hc : 0 < S m / sqrt (2 * PI)).
  { apply Rdiv_lt_0_compat; [exact HS | apply sqrt_2PI_pos]. }
  replace (S m * q1 * (exp (- (a * T m) / 2) / sqrt (2 * PI)))
    with (S m / sqrt (2 * PI) * (q1 * exp (- (a * T m) / 2)))
    by (field; generalize sqrt_2PI_pos; lra).
  replace (S m * q2 * (exp (- (a * t2) / 2) / sqrt (2 * PI)))
    with (S m / sqrt (2 * PI) * (q2 * exp (- (a * t2) / 2)))
    by (field; generalize sqrt_2PI_pos; lra).
  apply Rmult_lt_compat_l; assumption.
Qed.


End AtTheMoney.

(** What [d1] evaluates to when the volatility is 0 (and T > 0): the
    numerator [ln(S/K) + r T] is divided by 0. *)
Definition d1_at_zero_volatility (m : BlackScholes.self) : float64 :=
  let n := ln (BlackScholes.S m / BlackScholes.K m)
           + (BlackScholes.r m + 0.5 * BlackScholes.sigma m ^ 2)
             * BlackScholes.T m in
  if Req_EM_T n 0 then NaN else if Rlt_dec 0 n then PInf else NInf.

Section ZeroVolatility.
Import BlackScholes.
Variable m : self.
Hypothesis HS : 0 < S m.
Hypothesis HK : 0 < K m.
Hypothesis HT : 0 < T m.
Hypothesis Hs : sigma m = 0.

Lemma d1_outcome_zero_volatility :
  outcome (d1 m) = inr (d1_at_zero_volatility m).
Proof.
  unfold d1, d1_at_zero_volatility. unfold_numpy.
  destruct (Req_EM_T (K m) 0) as [E|_]; [lra|].
  assert (Hq : 0 < S m / K m) by (apply Rdiv_lt_0_compat; assumption).
  destruct (Rlt_dec 0 (S m / K m)) as [_|N]; [|contradiction].
  cbv beta iota.
  destruct (Rle_dec 0 (T m)) as [_|N]; [|lra].
  cbv beta iota.
  destruct (Req_EM_T (sigma m * sqrt (T m)) 0) as [_|N];
    [|contradiction N; rewrite Hs; ring].
  destruct (Req_EM_T _ 0) as [_|_]; [reflexivity|].
  destruct (Rlt_dec 0 _); reflexivity.
Qed.

Lemma d2_outcome_zero_volatility :
  outcome (d2 m) = inr (d1_at_zero_volatility m).
Proof.
  unfold d2.
  destruct (d1 m) as [o w s] eqn:E1.
  assert (Ho : o = inr (d1_at_zero_volatility m)).
  { generalize d1_outcome_zero_volatility. rewrite E1. simpl. auto. }
  assert (Hst : s = m).
  { generalize (d1_preserves m). unfold preserves. rewrite E1. simpl. auto. }
  subst o s.
  rewrite (bind_outcome_run _ _ _ _ _ E1). unfold_numpy.
  destruct (Rle_dec 0 (T m)) as [_|N]; [|lra].
  unfold d1_at_zero_volatility.
  destruct (Req_EM_T _ 0); [reflexivity|].
  destruct (Rlt_dec 0 _); reflexivity.
Qed.

(** The sign of [ln(S/K) + r T] is the sign of [S - K exp(-rT)]. *)
Lemma forward_moneyness_pos :
  0 < ln (S m / K m) + r m * T m -> discounted_strike m < S m.
Proof.
  intros H. unfold discounted_strike.
  assert (Hq : 0 < S m / K m) by (apply Rdiv_lt_0_compat; assumption).
  assert (He : exp (- r m * T m) < S m / K m).
  { rewrite <- (exp_ln (S m / K m)) by exact Hq. apply exp_increasing. lra. }
  apply (Rmult_lt_compat_l (K m)) in He; [|exact HK].
  replace (K m * (S m / K m)) with (S m) in He by (field; lra).
  exact He.
Qed.

Lemma forward_moneyness_neg :
  ln (S m / K m) + r m * T m < 0 -> S m < discounted_strike m.
Proof.
  intros H. unfold discounted_strike.
  assert (Hq : 0 < S m / K m) by (apply Rdiv_lt_0_compat; assumption).
  assert (He : S m / K m < exp (- r m * T m)).
  { rewrite <- (exp_ln (S m / K m)) by exact Hq. apply exp_increasing. lra. }
  apply (Rmult_lt_compat_l (K m)) in He; [|exact HK].
  replace (K m * (S m / K m)) with (S m) in He by (field; lra).
  exact He.
Qed.

Lemma forward_moneyness_zero :
  ln (S m / K m) + r m * T m = 0 -> S m = discounted_strike m.
Proof.
  intros H. unfold discounted_strike.
  assert (Hq : 0 < S m / K m) by (apply Rdiv_lt_0_compat; assumption).
  replace (- r m * T m) with (ln (S m / K m)) by lra.
  rewrite exp_ln by exact Hq. field. lra.
Qed.

Lemma zero_volatility_numerator :
  ln (S m / K m) + (r m + 0.5 * sigma m ^ 2) * T m
  = ln (S m / K m) + r m * T m.
Proof. rewrite Hs. ring. Qed.

Lemma price_european_call_zero_volatility :
  outcome (price_european_call m)
  = inr (if Req_EM_T (S m) (discounted_strike m) then NaN
         else Fin (Rmax 0 (S m - discounted_strike m))).
Proof.
  unfold price_european_call.
  destruct (d1 m) as [o1 w1 s1] eqn:E1.
  assert (Ho1 : o1 = inr (d1_at_zero_volatility m)).
  { generalize d1_outcome_zero_volatility. rewrite E1. simpl. auto. }
  assert (Hst1 : s1 = m).
  { generalize (d1_preserves m). unfold preserves. rewrite E1. simpl. auto. }
  subst o1 s1. rewrite (bind_outcome_run _ _ _ _ _ E1).
  destruct (d2 m) as [o2 w2 s2] eqn:E2.
  assert (Ho2 : o2 = inr (d1_at_zero_volatility m)).
  { generalize d2_outcome_zero_volatility. rewrite E2. simpl. auto. }
  assert (Hst2 : s2 = m).
  { generalize (call_preserves q_d2 m). unfold preserves, call.
    rewrite E2. simpl. auto. }
  subst o2 s2. rewrite (bind_outcome_run _ _ _ _ _ E2).
  unfold d1_at_zero_volatility. rewrite zero_volatility_numerator.
  unfold_numpy.
  destruct (Req_EM_T (T m) 0) as [E|_]; [lra|].
  destruct (Req_EM_T (ln (S m / K m) + r m * T m) 0) as [Z|NZ].
  - apply forward_moneyness_zero in Z.
    destruct (Req_EM_T (S m) (discounted_strike m)); [reflexivity|lra].
  - destruct (Rlt_dec 0 (ln (S m / K m) + r m * T m)) as [P|NP].
    + apply forward_moneyness_pos in P.
      destruct (Req_EM_T (S m) (discounted_strike m)); [lra|].
      simpl. rewrite Rmax_right by lra. unfold discounted_strike.
      do 2 apply f_equal. ring.
    + assert (P : ln (S m / K m) + r m * T m < 0) by lra.
      apply forward_moneyness_neg in P.
      destruct (Req_EM_T (S m) (discounted_strike m)); [lra|].
      simpl. rewrite Rmax_left by lra. unfold discounted_strike.
      do 2 apply f_equal. ring.
Qed.

Lemma price_european_put_zero_volatility :
  outcome (price_european_put m)
  = inr (if Req_EM_T (S m) (discounted_strike m) then NaN
         else Fin (Rmax 0 (discounted_strike m - S m))).
Proof.
  unfold price_european_put.
  destruct (d1 m) as [o1 w1 s1] eqn:E1.
  assert (Ho1 : o1 = inr (d1_at_zero_volatility m)).
  { generalize d1_outcome_zero_volatility. rewrite E1. simpl. auto. }
  assert (Hst1 : s1 = m).
  { generalize (d1_preserves m). unfold preserves. rewrite E1. simpl. auto. }
  subst o1 s1. rewrite (bind_outcome_run _ _ _ _ _ E1).
  destruct (d2 m) as [o2 w2 s2] eqn:E2.
  assert (Ho2 : o2 = inr (d1_at_zero_volatility m)).
  { generalize d2_outcome_zero_volatility. rewrite E2. simpl. auto. }
  assert (Hst2 : s2 = m).
  { generalize (call_preserves q_d2 m). unfold preserves, call.
    rewrite E2. simpl. auto. }
  subst o2 s2. rewrite (bind_outcome_run _ _ _ _ _ E2).
  unfold d1_at_zero_volatility. rewrite zero_volatility_numerator.
  unfold_numpy.
  destruct (Req_EM_T (T m) 0) as [E|_]; [lra|].
  destruct (Req_EM_T (ln (S m / K m) + r m * T m) 0) as [Z|NZ].
  - apply forward_moneyness_zero in Z.
    destruct (Req_EM_T (S m) (discounted_strike m)); [reflexivity|lra].
  - destruct (Rlt_dec 0 (ln (S m / K m) + r m * T m)) as [P|NP].
    + apply forward_moneyness_pos in P.
      destruct (Req_EM_T (S m) (discounted_strike m)); [lra|].
      simpl. rewrite Rmax_left by lra. unfold discounted_strike.
      do 2 apply f_equal. ring.
    + assert (P : ln (S m / K m) + r m * T m < 0) by lra.
      apply forward_moneyness_neg in P.
      destruct (Req_EM_T (S m) (discounted_strike m)); [lra|].
      simpl. rewrite Rmax_right by lra. unfold discounted_strike.
      do 2 apply f_equal. ring.
Qed.
End ZeroVolatility.

Section ZeroVolatilityTheorem.
Import BlackScholes.


End ZeroVolatilityTheorem.
